(** * dynfunc: calling a function from a mapping of named values

    A shallow embedding of [src/dynfunc/__init__.py]:
    [ParameterError], [_get_arg_value], [populate_args] and
    [call_with_args], followed by the properties of the specification
    that concern them.

    Modelling choices, all read off the source:
    - [data_map] is a [dict], as the docstring of [_get_arg_value] types
      it: an insertion-ordered association list ([Dict.t]) whose
      subscript only reads; a failed subscript ([KeyError]) is [None];
    - [inspect.signature(func).parameters] is the ordered list of the
      callable's parameters ([Param], for [inspect.Parameter]); the key
      of each item is the parameter's name, and [Parameter.empty] as a
      default is [None]. A signature has no two parameters of the same
      name: the properties that need it say so;
    - applying [func] to the unpacked [args] and [kwargs] is the field
      [call] of a [Callable]: what the callable returns or raises when
      applied to a positional sequence and a keyword mapping, which is
      all that [call_with_args] hands to it;
    - the objects the functions touch ([data_map], and the local [args]
      and [kwargs] that [populate_args] fills through [args.append] and
      [kwargs.__setitem__]) live in a [store] threaded through a
      state-and-exception monad, so that a raise keeps the store. *)

From Stdlib Require Import String Ascii List Bool Arith ZArith Lia Permutation.
Import ListNotations.
Local Open Scope string_scope.
Local Open Scope list_scope.

(** ** Python dictionaries *)

Module Dict.
Section Defs.
Context {V : Type}.

Definition t : Type := list (string * V).

Definition empty : t := [].

(** [d[k]]: [None] stands for [KeyError(k)]. *)
Fixpoint getitem (d : t) (k : string) : option V :=
  match d with
  | [] => None
  | (k', v) :: d' => if String.eqb k' k then Some v else getitem d' k
  end.

(** [d[k] = v]: an existing key keeps its place, a new one goes last. *)
Fixpoint setitem (d : t) (k : string) (v : V) : t :=
  match d with
  | [] => [(k, v)]
  | (k', v') :: d' =>
      if String.eqb k' k then (k, v) :: d' else (k', v') :: setitem d' k v
  end.

(** [list(d.keys())] *)
Definition keys (d : t) : list string := map fst d.

End Defs.
Arguments t : clear implicits.
End Dict.

(** ** Exceptions and results *)

(** [ParameterError(name, valid_args)] keeps both arguments as
    attributes; [TypeError(msg)] is the builtin; [OtherError] stands for
    any other exception class a callable may raise. *)
Inductive exn : Type :=
| ParameterError (name : string) (valid_args : list string)
| TypeError (msg : string)
| OtherError (cls : string) (msg : string).



Inductive result (A : Type) : Type :=
| Return (a : A)
| Raise (e : exn).
Arguments Return {A} a.
Arguments Raise {A} e.

(** ** [inspect.Parameter] *)

Inductive ParameterKind : Type :=
| POSITIONAL_ONLY
| POSITIONAL_OR_KEYWORD
| VAR_POSITIONAL
| KEYWORD_ONLY
| VAR_KEYWORD.

Definition is_positional_only (k : ParameterKind) : bool :=
  match k with POSITIONAL_ONLY => true | _ => false end.

Definition is_variable (k : ParameterKind) : bool :=
  match k with VAR_POSITIONAL | VAR_KEYWORD => true | _ => false end.

Section Dynfunc.
Variable Value : Type.

Record Param : Type := mkParam {
  name : string;
  kind : ParameterKind;
  default : option Value        (* [None] is [Parameter.empty] *)
}.

Record Callable : Type := mkCallable {
  parameters : list Param;                       (* signature(func).parameters *)
  call : list Value -> Dict.t Value -> result Value  (* func applied to args, kwargs *)
}.

(** ** The store and its monad *)

Record store : Type := mkStore {
  data_map : Dict.t Value;
  args : list Value;
  kwargs : Dict.t Value
}.

Definition M (A : Type) : Type := store -> result A * store.

Definition ret {A} (a : A) : M A := fun s => (Return a, s).

Definition raise {A} (e : exn) : M A := fun s => (Raise e, s).

Definition bind {A B} (m : M A) (f : A -> M B) : M B :=
  fun s =>
    match m s with
    | (Return a, s') => f a s'
    | (Raise e, s') => (Raise e, s')
    end.

Definition lift {A} (r : result A) : M A := fun s => (r, s).

Definition get_data_map : M (Dict.t Value) := fun s => (Return (data_map s), s).

Definition get_args : M (list Value) := fun s => (Return (args s), s).

Definition get_kwargs : M (Dict.t Value) := fun s => (Return (kwargs s), s).

(** [args = []] and [kwargs = {}] *)
Definition new_locals : M unit :=
  fun s => (Return tt, mkStore (data_map s) [] Dict.empty).

(** [_args_add = args.append] *)
Definition _args_add (v : Value) : M unit :=
  fun s => (Return tt, mkStore (data_map s) (args s ++ [v]) (kwargs s)).

(** [_kwargs_add = kwargs.__setitem__] *)
Definition _kwargs_add (key : string) (v : Value) : M unit :=
  fun s => (Return tt, mkStore (data_map s) (args s) (Dict.setitem (kwargs s) key v)).

Notation "x <- m ;; k" := (bind m (fun x => k))
  (at level 61, m at next level, right associativity).
Notation "m ;;; k" := (bind m (fun _ => k))
  (at level 61, right associativity).

(** ** The source functions *)

(** [_get_arg_value(param, data_map)]: the subscript is tried first;
    in the [KeyError] handler [e.args[0]] is the key that was looked
    up, which is [param.name]. *)
Definition _get_arg_value (param : Param) : M Value :=
  d <- get_data_map ;;
  match Dict.getitem d (name param) with
  | Some v => ret v
  | None =>
      match default param with
      | None => raise (ParameterError (name param) (Dict.keys d))
      | Some dv => ret dv
      end
  end.

(** The body of the [for key, param in sig.parameters.items()] loop.
    The last [else] of the source is out of reach: [ParameterKind]
    has exactly these five members. *)
Definition populate_param (param : Param) : M unit :=
  let key := name param in
  match kind param with
  | KEYWORD_ONLY => v <- _get_arg_value param ;; _kwargs_add key v
  | POSITIONAL_ONLY => v <- _get_arg_value param ;; _args_add v
  | POSITIONAL_OR_KEYWORD => v <- _get_arg_value param ;; _kwargs_add key v
  | VAR_KEYWORD =>
      raise (TypeError ("Unable to populate VAR_KEYWORD parameter '" ++ key ++ "'"))
  | VAR_POSITIONAL =>
      raise (TypeError ("Unable to populate VAR_POSITIONAL parameter '" ++ key ++ "'"))
  end.

Fixpoint populate_loop (params : list Param) : M unit :=
  match params with
  | [] => ret tt
  | param :: rest => populate_param param ;;; populate_loop rest
  end.

(** [populate_args(func, data_map)] *)
Definition populate_args (func : Callable) : M (list Value * Dict.t Value) :=
  new_locals ;;;
  populate_loop (parameters func) ;;;
  a <- get_args ;;
  k <- get_kwargs ;;
  ret (a, k).

(** [call_with_args(func, arg_data)] *)
Definition call_with_args (func : Callable) : M Value :=
  r <- populate_args func ;;
  lift (call func (fst r) (snd r)).

(** Running a function of the module on a data mapping: the store a
    caller provides holds the mapping; [outcome] is what the caller
    gets back and [data_map_after] is the mapping as the caller finds
    it afterwards. *)
Definition enter (d : Dict.t Value) : store := mkStore d [] Dict.empty.

Definition outcome {A} (m : M A) (d : Dict.t Value) : result A :=
  fst (m (enter d)).

Definition data_map_after {A} (m : M A) (d : Dict.t Value) : Dict.t Value :=
  data_map (snd (m (enter d))).

End Dynfunc.

Arguments mkParam {Value} name kind default.
Arguments name {Value} p.
Arguments kind {Value} p.
Arguments default {Value} p.
Arguments mkCallable {Value} parameters call.
Arguments parameters {Value} c.
Arguments call {Value} c _ _.
Arguments mkStore {Value} data_map args kwargs.
Arguments data_map {Value} s.
Arguments args {Value} s.
Arguments kwargs {Value} s.
Arguments ret {Value A} a _.
Arguments raise {Value A} e _.
Arguments bind {Value A B} m f _.
Arguments lift {Value A} r _.
Arguments get_data_map {Value} _.
Arguments get_args {Value} _.
Arguments get_kwargs {Value} _.
Arguments new_locals {Value} _.
Arguments _args_add {Value} v _.
Arguments _kwargs_add {Value} key v _.
Arguments _get_arg_value {Value} param _.
Arguments populate_param {Value} param _.
Arguments populate_loop {Value} params _.
Arguments populate_args {Value} func _.
Arguments call_with_args {Value} func _.
Arguments enter {Value} d.
Arguments outcome {Value A} m d.
Arguments data_map_after {Value A} m d.

(** ** Vocabulary of the properties *)

(** The message of the [TypeError] raised for a variable parameter, as
    the two [raise] statements of [populate_args] format it; the other
    kinds have no such message. *)
Definition unsupported_message (k : ParameterKind) (key : string) : string :=
  match k with
  | VAR_KEYWORD => "Unable to populate VAR_KEYWORD parameter '" ++ key ++ "'"
  | VAR_POSITIONAL => "Unable to populate VAR_POSITIONAL parameter '" ++ key ++ "'"
  | _ => ""
  end.

Section Vocabulary.
Context {Value : Type}.
Implicit Types (p q : Param Value) (s : store Value) (d : Dict.t Value)
  (v : Value) (f : Callable Value).

(** What the loop does to the store once the value of [p] is known. *)
Definition store_after p v s : store Value :=
  if is_positional_only (kind p)
  then mkStore (data_map s) (args s ++ [v]) (kwargs s)
  else mkStore (data_map s) (args s) (Dict.setitem (kwargs s) (name p) v).

(** [p] finds its value [v] in [d]: [_get_arg_value] returns it. *)
Definition resolves p d v : Prop :=
  outcome (_get_arg_value p) d = Return v.

(** The parameter is handed to the callable by name. *)
Definition passed_by_keyword p : bool := negb (is_positional_only (kind p)).

(** [p] stops the loop on [d] with the exception [e]. *)
Definition fails_with p d (e : exn) : Prop :=
  (is_variable (kind p) = true /\
   e = TypeError (unsupported_message (kind p) (name p)))
  \/ (is_variable (kind p) = false /\
      Dict.getitem d (name p) = None /\ default p = None /\
      e = ParameterError (name p) (Dict.keys d)).

(** [p] lets the loop go on. *)
Definition passes p d : Prop :=
  is_variable (kind p) = false /\ exists v, resolves p d v.

(** The three ways one turn of the loop can go. *)
Inductive param_case p d : Type :=
| case_variable : is_variable (kind p) = true -> param_case p d
| case_resolved v : is_variable (kind p) = false -> resolves p d v -> param_case p d
| case_missing :
    is_variable (kind p) = false ->
    Dict.getitem d (name p) = None -> default p = None -> param_case p d.

(** Two mappings hold the same thing under every declared parameter
    name of [f]; they may differ in any other key. *)
Definition agree_on_parameters f d1 d2 : Prop :=
  forall p, In p (parameters f) ->
    Dict.getitem d1 (name p) = Dict.getitem d2 (name p).

(** Given each parameter with the value it takes, the positional
    sequence and the keyword mapping that the loop builds from the
    empty [args] and [kwargs]. *)
Definition positional_values (pvs : list (Param Value * Value)) : list Value :=
  map snd (filter (fun pv => is_positional_only (kind (fst pv))) pvs).

Definition keyword_entries (pvs : list (Param Value * Value)) : Dict.t Value :=
  map (fun pv => (name (fst pv), snd pv))
    (filter (fun pv => passed_by_keyword (fst pv)) pvs).
End Vocabulary.

(** ** The callables of the docstring of [call_with_args]

    Values are a small fragment of Python's; each [call] gives what the
    function it stands for returns or raises on the call shapes used
    below, and a [TypeError] on the others. *)

#[local] Unset Elimination Schemes.
Inductive pyval : Type :=
| PyInt (z : Z)
| PyStr (s : string)
| PyList (l : list pyval)
| PyTuple (l : list pyval).
#[local] Set Elimination Schemes.

Definition bad_call : result pyval :=
  Raise (TypeError "wrong arguments").

(** [def a(n): return n**2] *)
Definition py_a : Callable pyval :=
  mkCallable [mkParam "n" POSITIONAL_OR_KEYWORD None]
    (fun a k =>
       match a, k with
       | [PyInt n], [] => Return (PyInt (n * n))
       | [], [(key, PyInt n)] =>
           if String.eqb key "n" then Return (PyInt (n * n)) else bad_call
       | _, _ => bad_call
       end).

(** [def func( *, param): return param] *)
Definition py_func : Callable pyval :=
  mkCallable [mkParam "param" KEYWORD_ONLY None]
    (fun a k =>
       match a, k with
       | [], [(key, v)] => if String.eqb key "param" then Return v else bad_call
       | _, _ => bad_call
       end).

(** [lambda *args: args] *)
Definition py_star_args : Callable pyval :=
  mkCallable [mkParam "args" VAR_POSITIONAL None]
    (fun a k => match k with [] => Return (PyTuple a) | _ => bad_call end).

(** [lambda **args: args], the collected mapping shown as a list of
    pairs *)
Definition py_star_star_args : Callable pyval :=
  mkCallable [mkParam "args" VAR_KEYWORD None]
    (fun a k =>
       match a with
       | [] => Return (PyList (map (fun kv => PyTuple [PyStr (fst kv); snd kv]) k))
       | _ => bad_call
       end).

(** [lambda a, b=1, c=2: (a, b, c)], called by keyword *)
Definition py_abc : Callable pyval :=
  mkCallable
    [mkParam "a" POSITIONAL_OR_KEYWORD None;
     mkParam "b" POSITIONAL_OR_KEYWORD (Some (PyInt 1));
     mkParam "c" POSITIONAL_OR_KEYWORD (Some (PyInt 2))]
    (fun a k =>
       match a, Dict.getitem k "a" with
       | [], Some va =>
           let vb := match Dict.getitem k "b" with Some v => v | None => PyInt 1 end in
           let vc := match Dict.getitem k "c" with Some v => v | None => PyInt 2 end in
           if forallb (fun key => existsb (String.eqb key) ["a"; "b"; "c"]) (Dict.keys k)
           then Return (PyTuple [va; vb; vc]) else bad_call
       | _, _ => bad_call
       end).

(** [def g(a, *rest): return a]: a required parameter declared before a
    variable one *)
Definition py_a_rest : Callable pyval :=
  mkCallable
    [mkParam "a" POSITIONAL_OR_KEYWORD None; mkParam "rest" VAR_POSITIONAL None]
    (fun a k =>
       match a, k with
       | v :: _, [] => Return v
       | _, _ => bad_call
       end).

(** [def h(x, /, y=7, *, z): return (x, y, z)] called as
    [h(vx, y=vy, z=vz)] *)
Definition py_xyz : Callable pyval :=
  mkCallable
    [mkParam "x" POSITIONAL_ONLY None;
     mkParam "y" POSITIONAL_OR_KEYWORD (Some (PyInt 7));
     mkParam "z" KEYWORD_ONLY None]
    (fun a k =>
       match a, Dict.getitem k "z" with
       | [vx], Some vz =>
           let vy := match Dict.getitem k "y" with Some v => v | None => PyInt 7 end in
           Return (PyTuple [vx; vy; vz])
       | _, _ => bad_call
       end).

(** [def f(a, b): return (a, b)] *)
Definition py_ab : Callable pyval :=
  mkCallable
    [mkParam "a" POSITIONAL_OR_KEYWORD None; mkParam "b" POSITIONAL_OR_KEYWORD None]
    (fun a k =>
       match a, k with
       | [va; vb], [] => Return (PyTuple [va; vb])
       | [], [_; _] =>
           match Dict.getitem k "a", Dict.getitem k "b" with
           | Some va, Some vb => Return (PyTuple [va; vb])
           | _, _ => bad_call
           end
       | _, _ => bad_call
       end).

(** [def boom(n): raise ValueError('boom')] *)
Definition py_boom : Callable pyval :=
  mkCallable [mkParam "n" POSITIONAL_OR_KEYWORD None]
    (fun a k =>
       match a, k with
       | [_], [] => Raise (OtherError "ValueError" "boom")
       | [], [(key, _)] =>
           if String.eqb key "n" then Raise (OtherError "ValueError" "boom")
           else bad_call
       | _, _ => bad_call
       end).

(** [def pair(u, w=9, /): return (u, w)] *)
Definition py_pair : Callable pyval :=
  mkCallable
    [mkParam "u" POSITIONAL_ONLY None; mkParam "w" POSITIONAL_ONLY (Some (PyInt 9))]
    (fun a k =>
       match a, k with
       | [vu], [] => Return (PyTuple [vu; PyInt 9])
       | [vu; vw], [] => Return (PyTuple [vu; vw])
       | _, _ => bad_call
       end).

(** [lambda b=1, c=2: (b, c)], called by keyword *)
Definition py_bc : Callable pyval :=
  mkCallable
    [mkParam "b" POSITIONAL_OR_KEYWORD (Some (PyInt 1));
     mkParam "c" POSITIONAL_OR_KEYWORD (Some (PyInt 2))]
    (fun a k =>
       match a with
       | [] =>
           let vb := match Dict.getitem k "b" with Some v => v | None => PyInt 1 end in
           let vc := match Dict.getitem k "c" with Some v => v | None => PyInt 2 end in
           if forallb (fun key => existsb (String.eqb key) ["b"; "c"]) (Dict.keys k)
           then Return (PyTuple [vb; vc]) else bad_call
       | _ => bad_call
       end).

(** The docstring's runs. *)
Example doctest_a :
  outcome (call_with_args py_a)
    [("n", PyInt 5); ("s", PyInt 4); ("tm", PyInt 3)] = Return (PyInt 25).
Proof. reflexivity. Qed.

Example doctest_func :
  outcome (call_with_args py_func) [("param", PyStr "foo")] = Return (PyStr "foo").
Proof. reflexivity. Qed.

Example doctest_func_missing :
  outcome (call_with_args py_func) [("other", PyStr "foo")]
  = Raise (ParameterError "param" ["other"]).
Proof. reflexivity. Qed.

Example doctest_star_args :
  outcome (call_with_args py_star_args) [("args", PyList [PyInt 1])]
  = Raise (TypeError "Unable to populate VAR_POSITIONAL parameter 'args'").
Proof. reflexivity. Qed.

Example doctest_star_star_args :
  outcome (call_with_args py_star_star_args) [("args", PyList [PyInt 1])]
  = Raise (TypeError "Unable to populate VAR_KEYWORD parameter 'args'").
Proof. reflexivity. Qed.

Example doctest_abc :
  outcome (call_with_args py_abc) [("a", PyInt 1); ("b", PyInt 3)]
  = Return (PyTuple [PyInt 1; PyInt 3; PyInt 2]).
Proof. reflexivity. Qed.

Example populate_xyz :
  outcome (populate_args py_xyz) [("z", PyInt 3); ("x", PyInt 1)]
  = Return ([PyInt 1], [("y", PyInt 7); ("z", PyInt 3)]).
Proof. reflexivity. Qed.

(** * Properties *)

(** ** Facts about dictionaries *)

Section DictFacts.
Context {V : Type}.
Implicit Types (d : Dict.t V) (k : string) (v : V).
Import Dict.

Lemma getitem_setitem_same d k v : getitem (setitem d k v) k = Some v.
Proof.
induction d as [|[k' v'] d IH]; simpl.
- now rewrite String.eqb_refl.
- destruct (String.eqb k' k) eqn:E; simpl.
  + now rewrite String.eqb_refl.
  + now rewrite E.
Qed.

Lemma getitem_setitem_other d k k' v :
k <> k' -> getitem (setitem d k v) k' = getitem d k'.
Proof.
intros Hne. induction d as [|[k0 v0] d IH]; simpl.
- destruct (String.eqb_spec k k'); congruence.
- destruct (String.eqb_spec k0 k) as [->|Hk]; simpl.
  + destruct (String.eqb_spec k k'); congruence.
  + now rewrite IH.
Qed.

Lemma getitem_None_keys d k : getitem d k = None <-> ~ In k (keys d).
Proof.
induction d as [|[k' v'] d IH]; simpl.
- tauto.
- destruct (String.eqb_spec k' k) as [->|Hk].
  + split; [discriminate | tauto].
  + rewrite IH. tauto.
Qed.

Lemma setitem_fresh d k v :
~ In k (keys d) -> setitem d k v = d ++ [(k, v)].
Proof.
induction d as [|[k' v'] d IH]; simpl; intros Hn.
- reflexivity.
- destruct (String.eqb_spec k' k) as [->|Hk].
  + tauto.
  + rewrite IH by tauto. reflexivity.
Qed.

Lemma keys_setitem_fresh d k v :
~ In k (keys d) -> keys (setitem d k v) = keys d ++ [k].
Proof.
intros Hn. rewrite setitem_fresh by assumption.
unfold keys. now rewrite map_app.
Qed.

Lemma in_keys_setitem d k v k' :
In k' (keys (setitem d k v)) <-> k' = k \/ In k' (keys d).
Proof.
induction d as [|[k0 v0] d IH]; simpl.
- intuition congruence.
- destruct (String.eqb_spec k0 k) as [->|Hk]; simpl.
  + intuition congruence.
  + rewrite IH. intuition congruence.
Qed.

Lemma getitem_app_fresh d d' k :
  ~ In k (keys d) -> getitem (d ++ d') k = getitem d' k.
Proof.
  induction d as [|[k0 v0] d IH]; simpl; intros Hn.
  - reflexivity.
  - destruct (String.eqb_spec k0 k) as [->|Hk]; [tauto|]. apply IH. tauto.
Qed.
End DictFacts.

(** ** One parameter at a time *)

Section Resolver.
Context {Value : Type}.
Implicit Types (p q : Param Value) (ps : list (Param Value))
  (s : store Value) (d : Dict.t Value) (v : Value) (f : Callable Value).

Ltac run_monad :=
  unfold populate_param, _get_arg_value, _args_add, _kwargs_add, new_locals,
    get_data_map, get_args, get_kwargs, bind, ret, raise, lift; simpl.

Lemma get_arg_value_run p s :
  _get_arg_value p s =
  (match Dict.getitem (data_map s) (name p) with
   | Some v => Return v
   | None =>
       match default p with
       | Some dv => Return dv
       | None => Raise (ParameterError (name p) (Dict.keys (data_map s)))
       end
   end, s).
Proof.
  run_monad. destruct (Dict.getitem _ _); [reflexivity|].
  destruct (default p); reflexivity.
Qed.

Lemma get_arg_value_outcome p s :
  fst (_get_arg_value p s) = outcome (_get_arg_value p) (data_map s).
Proof. unfold outcome. now rewrite !get_arg_value_run. Qed.

Lemma resolves_iff p d v :
  resolves p d v <->
  Dict.getitem d (name p) = Some v
  \/ (Dict.getitem d (name p) = None /\ default p = Some v).
Proof.
  unfold resolves, outcome. rewrite get_arg_value_run. simpl.
  destruct (Dict.getitem d (name p)) as [w|].
  - split; [intros [= ->]; now left | intros [[= ->]|[[=] _]]; reflexivity].
  - destruct (default p) as [w|].
    + split; [intros [= ->]; now right | intros [[=]|[_ [= ->]]]; reflexivity].
    + split; [discriminate | intros [[=]|[_ [=]]]].
Qed.

Lemma resolves_fun p d v w : resolves p d v -> resolves p d w -> v = w.
Proof. unfold resolves. congruence. Qed.

Lemma populate_param_variable p s :
  is_variable (kind p) = true ->
  populate_param p s = (Raise (TypeError (unsupported_message (kind p) (name p))), s).
Proof. unfold populate_param. destruct (kind p); simpl; intros [=]; reflexivity. Qed.

Lemma populate_param_resolved p s v :
  is_variable (kind p) = false -> resolves p (data_map s) v ->
  populate_param p s = (Return tt, store_after p v s).
Proof.
  intros Hk Hv. unfold resolves in Hv. rewrite <- get_arg_value_outcome in Hv.
  unfold populate_param, store_after, bind.
  destruct (_get_arg_value p s) as [r s0] eqn:E.
  assert (s0 = s) by (rewrite get_arg_value_run in E; congruence). subst s0.
  simpl in Hv. subst r.
  destruct (kind p); simpl in *; try discriminate; rewrite E; reflexivity.
Qed.

Lemma populate_param_missing p s :
  is_variable (kind p) = false ->
  Dict.getitem (data_map s) (name p) = None -> default p = None ->
  populate_param p s =
  (Raise (ParameterError (name p) (Dict.keys (data_map s))), s).
Proof.
  intros Hk Hg Hd. unfold populate_param.
  destruct (kind p); simpl in *; try discriminate;
    unfold bind; rewrite get_arg_value_run, Hg, Hd; reflexivity.
Qed.

Lemma param_cases p d : param_case p d.
Proof.
  destruct (is_variable (kind p)) eqn:Hk; [now apply case_variable|].
  destruct (Dict.getitem d (name p)) as [v|] eqn:Hg.
  - apply (case_resolved p d v Hk). apply resolves_iff. now left.
  - destruct (default p) as [v|] eqn:Hd.
    + apply (case_resolved p d v Hk). apply resolves_iff. now right.
    + now apply case_missing.
Qed.

Lemma data_map_store_after p v s : data_map (store_after p v s) = data_map s.
Proof. unfold store_after. now destruct (is_positional_only _). Qed.

(** ** The loop *)

Lemma populate_loop_app ps ps' s :
  populate_loop (ps ++ ps') s =
  match populate_loop ps s with
  | (Return _, s') => populate_loop ps' s'
  | (Raise e, s') => (Raise e, s')
  end.
Proof.
  revert s. induction ps as [|p ps IH]; intros s; simpl.
  - reflexivity.
  - unfold bind. destruct (populate_param p s) as [[[]|e] s1]; [apply IH | reflexivity].
Qed.

Lemma populate_loop_cons_resolved p ps s v :
  is_variable (kind p) = false -> resolves p (data_map s) v ->
  populate_loop (p :: ps) s = populate_loop ps (store_after p v s).
Proof.
  intros Hk Hv. simpl. unfold bind.
  now rewrite (populate_param_resolved p s v Hk Hv).
Qed.

(** The loop only reads [data_map], whether it finishes or raises. *)
Lemma populate_loop_frame ps s :
  data_map (snd (populate_loop ps s)) = data_map s.
Proof.
  revert s. induction ps as [|p ps IH]; intros s; [reflexivity|].
  destruct (param_cases p (data_map s)) as [Hk|v Hk Hv|Hk Hg Hd].
  - simpl. unfold bind. now rewrite populate_param_variable.
  - rewrite (populate_loop_cons_resolved p ps s v Hk Hv), IH.
    apply data_map_store_after.
  - simpl. unfold bind. now rewrite populate_param_missing.
Qed.

(** Every parameter of a finished loop is of a supported kind and found
    its value. *)
Lemma populate_loop_returns ps s s' :
  populate_loop ps s = (Return tt, s') ->
  forall p, In p ps ->
    is_variable (kind p) = false /\ exists v, resolves p (data_map s) v.
Proof.
  revert s. induction ps as [|p0 ps IH]; intros s Hrun p Hin; [destruct Hin|].
  destruct (param_cases p0 (data_map s)) as [Hk|v Hk Hv|Hk Hg Hd].
  - simpl in Hrun. unfold bind in Hrun.
    rewrite populate_param_variable in Hrun by assumption. discriminate.
  - rewrite (populate_loop_cons_resolved p0 ps s v Hk Hv) in Hrun.
    destruct Hin as [<-|Hin]; [eauto|].
    destruct (IH _ Hrun p Hin) as [Hkp [w Hw]].
    rewrite data_map_store_after in Hw. eauto.
  - simpl in Hrun. unfold bind in Hrun.
    rewrite populate_param_missing in Hrun by assumption. discriminate.
Qed.

(** Conversely the loop finishes when every parameter is supported and
    finds a value. *)
Lemma populate_loop_total ps s :
  (forall p, In p ps ->
     is_variable (kind p) = false /\ exists v, resolves p (data_map s) v) ->
  exists s', populate_loop ps s = (Return tt, s').
Proof.
  revert s. induction ps as [|p0 ps IH]; intros s Hall; [now exists s|].
  destruct (Hall p0 (or_introl eq_refl)) as [Hk [v Hv]].
  rewrite (populate_loop_cons_resolved p0 ps s v Hk Hv).
  apply IH. intros p Hin. rewrite data_map_store_after. apply Hall. now right.
Qed.

(** [args] grows by the values of the positional-only parameters, in
    their declared order. *)
Lemma populate_loop_args ps s s' :
  populate_loop ps s = (Return tt, s') ->
  exists vs,
    args s' = args s ++ vs /\
    Forall2 (fun p v => resolves p (data_map s) v)
      (filter (fun p => is_positional_only (kind p)) ps) vs.
Proof.
  revert s. induction ps as [|p0 ps IH]; intros s Hrun.
  - injection Hrun as <-. exists []. rewrite app_nil_r. split; constructor.
  - destruct (populate_loop_returns _ _ _ Hrun p0 (or_introl eq_refl)) as [Hk [v Hv]].
    rewrite (populate_loop_cons_resolved p0 ps s v Hk Hv) in Hrun.
    destruct (IH _ Hrun) as [vs [Ha Hvs]].
    rewrite data_map_store_after in Hvs. simpl.
    unfold store_after in Ha.
    destruct (is_positional_only (kind p0)); simpl in Ha.
    + exists (v :: vs). rewrite Ha, <- app_assoc. split; [reflexivity|].
      now constructor.
    + now exists vs.
Qed.
(** [kwargs] grows by one entry per keyword-passed parameter, under the
    parameter's name and in declared order, when the names are distinct
    and not yet in [kwargs]. *)
Lemma populate_loop_kwargs ps s s' :
  populate_loop ps s = (Return tt, s') ->
  NoDup (map name ps) ->
  (forall p, In p ps -> ~ In (name p) (Dict.keys (kwargs s))) ->
  exists kvs,
    kwargs s' = kwargs s ++ kvs /\
    Forall2 (fun p kv => fst kv = name p /\ resolves p (data_map s) (snd kv))
      (filter passed_by_keyword ps) kvs.
Proof.
  revert s. induction ps as [|p0 ps IH]; intros s Hrun Hnd Hfresh.
  - injection Hrun as <-. exists []. rewrite app_nil_r. split; constructor.
  - destruct (populate_loop_returns _ _ _ Hrun p0 (or_introl eq_refl)) as [Hk [v Hv]].
    rewrite (populate_loop_cons_resolved p0 ps s v Hk Hv) in Hrun.
    simpl in Hnd. apply NoDup_cons_iff in Hnd. destruct Hnd as [Hp0 Hnd].
    assert (Hfresh' : forall p, In p ps ->
              ~ In (name p) (Dict.keys (kwargs (store_after p0 v s)))).
    { intros p Hin. unfold store_after.
      destruct (is_positional_only (kind p0)); simpl.
      - apply Hfresh. now right.
      - rewrite in_keys_setitem. intros [He|Hi].
        + apply Hp0. rewrite <- He. now apply in_map.
        + apply (Hfresh p); [now right | assumption]. }
    destruct (IH _ Hrun Hnd Hfresh') as [kvs [Hkw Hkvs]].
    rewrite data_map_store_after in Hkvs.
    simpl. unfold passed_by_keyword at 1. unfold store_after in Hkw.
    destruct (is_positional_only (kind p0)); simpl in *.
    + now exists kvs.
    + exists ((name p0, v) :: kvs). split.
      * rewrite Hkw, setitem_fresh, <- app_assoc; [reflexivity|].
        apply Hfresh. now left.
      * constructor; [split; [reflexivity | assumption] | assumption].
Qed.

(** An entry list built that way is read back by name. *)
Lemma keyword_entries_getitem d ps (kvs : Dict.t Value) p :
  Forall2 (fun p kv => fst kv = name p /\ resolves p d (snd kv)) ps kvs ->
  NoDup (map name ps) -> In p ps ->
  exists v, Dict.getitem kvs (name p) = Some v /\ resolves p d v.
Proof.
  induction 1 as [|p0 [k0 v0] ps kvs [Hk Hv] _ IH]; intros Hnd Hin; [destruct Hin|].
  simpl in *. subst k0. apply NoDup_cons_iff in Hnd. destruct Hnd as [Hp0 Hnd].
  destruct Hin as [->|Hin].
  - rewrite String.eqb_refl. eauto.
  - destruct (String.eqb_spec (name p0) (name p)) as [He|_]; [|now apply IH].
    exfalso. apply Hp0. rewrite He. now apply in_map.
Qed.

(** ** [populate_args] and [call_with_args] in terms of the loop *)

Lemma populate_args_run f s :
  populate_args f s =
  match populate_loop (parameters f) (enter (data_map s)) with
  | (Return _, s') => (Return (args s', kwargs s'), s')
  | (Raise e, s') => (Raise e, s')
  end.
Proof.
  unfold populate_args, bind, new_locals, get_args, get_kwargs, ret, enter.
  destruct (populate_loop _ _) as [[[]|e] s']; reflexivity.
Qed.

Lemma populate_args_outcome f d :
  outcome (populate_args f) d =
  match populate_loop (parameters f) (enter d) with
  | (Return _, s') => Return (args s', kwargs s')
  | (Raise e, _) => Raise e
  end.
Proof.
  unfold outcome. rewrite populate_args_run. simpl.
  destruct (populate_loop _ _) as [[[]|e] s']; reflexivity.
Qed.

Lemma populate_args_returns f d a k :
  outcome (populate_args f) d = Return (a, k) ->
  exists s', populate_loop (parameters f) (enter d) = (Return tt, s')
             /\ args s' = a /\ kwargs s' = k.
Proof.
  rewrite populate_args_outcome.
  destruct (populate_loop _ _) as [[[]|e] s']; [|discriminate].
  intros [= <- <-]. now exists s'.
Qed.

Lemma call_with_args_outcome f d :
  outcome (call_with_args f) d =
  match outcome (populate_args f) d with
  | Return r => call f (fst r) (snd r)
  | Raise e => Raise e
  end.
Proof.
  unfold outcome, call_with_args, bind, lift.
  destruct (populate_args f (enter d)) as [[r|e] s']; reflexivity.
Qed.
End Resolver.

(** ** How the loop fails *)

Section Failure.
Context {Value : Type}.
Implicit Types (p q : Param Value) (ps : list (Param Value))
  (s : store Value) (d : Dict.t Value) (v : Value) (f : Callable Value).

Lemma populate_param_fails p s e :
  fails_with p (data_map s) e -> populate_param p s = (Raise e, s).
Proof.
  intros [[Hk ->]|[Hk [Hg [Hd ->]]]].
  - now apply populate_param_variable.
  - now apply populate_param_missing.
Qed.

(** The exception of the loop is that of the first parameter that does
    not pass. *)
Lemma populate_loop_first_failure pre p post s e :
  (forall q, In q pre -> passes q (data_map s)) ->
  fails_with p (data_map s) e ->
  fst (populate_loop (pre ++ p :: post) s) = Raise e.
Proof.
  intros Hpre Hp. rewrite populate_loop_app.
  destruct (populate_loop_total pre s Hpre) as [s1 Hs1]. rewrite Hs1.
  assert (Hd : data_map s1 = data_map s).
  { rewrite <- (populate_loop_frame pre s). now rewrite Hs1. }
  simpl. unfold bind. rewrite (populate_param_fails p s1 e); [reflexivity|].
  now rewrite Hd.
Qed.

Lemma populate_loop_raises ps s e s' :
  populate_loop ps s = (Raise e, s') ->
  exists pre p post,
    ps = pre ++ p :: post /\
    (forall q, In q pre -> passes q (data_map s)) /\
    fails_with p (data_map s) e.
Proof.
  revert s. induction ps as [|p0 ps IH]; intros s Hrun; [discriminate|].
  destruct (param_cases p0 (data_map s)) as [Hk|v Hk Hv|Hk Hg Hd].
  - exists [], p0, ps. simpl in Hrun. unfold bind in Hrun.
    rewrite populate_param_variable in Hrun by assumption.
    injection Hrun as <- _.
    split; [reflexivity|]. split; [intros q []|]. now left.
  - rewrite (populate_loop_cons_resolved p0 ps s v Hk Hv) in Hrun.
    destruct (IH _ Hrun) as [pre [p [post [-> [Hpre Hp]]]]].
    rewrite data_map_store_after in Hpre, Hp.
    exists (p0 :: pre), p, post. split; [reflexivity|]. split; [|assumption].
    intros q [<-|Hin]; [split; eauto | now apply Hpre].
  - exists [], p0, ps. simpl in Hrun. unfold bind in Hrun.
    rewrite populate_param_missing in Hrun by assumption.
    injection Hrun as <- _.
    split; [reflexivity|]. split; [intros q []|]. right. auto.
Qed.

Lemma populate_args_first_failure f d pre p post e :
  parameters f = pre ++ p :: post ->
  (forall q, In q pre -> passes q d) ->
  fails_with p d e ->
  outcome (populate_args f) d = Raise e /\ outcome (call_with_args f) d = Raise e.
Proof.
  intros Hf Hpre Hp.
  assert (H : outcome (populate_args f) d = Raise e).
  { rewrite populate_args_outcome, Hf.
    pose proof (populate_loop_first_failure pre p post (enter d) e Hpre Hp) as H.
    destruct (populate_loop _ _) as [[[]|e'] s']; simpl in H; congruence. }
  split; [assumption|]. now rewrite call_with_args_outcome, H.
Qed.

Lemma populate_args_raises f d e :
  outcome (populate_args f) d = Raise e ->
  exists pre p post,
    parameters f = pre ++ p :: post /\
    (forall q, In q pre -> passes q d) /\
    fails_with p d e.
Proof.
  rewrite populate_args_outcome.
  destruct (populate_loop _ _) as [[[]|e'] s'] eqn:E; [discriminate|].
  intros [= ->]. apply (populate_loop_raises _ _ _ _ E).
Qed.

(** Distinct names identify a parameter of the signature. *)
Lemma same_name_same_param ps p q :
  NoDup (map name ps) -> In p ps -> In q ps -> name p = name q -> p = q.
Proof.
  induction ps as [|p0 ps IH]; intros Hnd Hp Hq Hn; [destruct Hp|].
  simpl in Hnd. apply NoDup_cons_iff in Hnd. destruct Hnd as [H0 Hnd].
  destruct Hp as [<-|Hp], Hq as [<-|Hq].
  - reflexivity.
  - exfalso. apply H0. rewrite Hn. now apply in_map.
  - exfalso. apply H0. rewrite <- Hn. now apply in_map.
  - now apply IH.
Qed.

(** The first variable parameter of a signature that has one. *)
Lemma first_variable ps p :
  In p ps -> is_variable (kind p) = true ->
  exists pre q post,
    ps = pre ++ q :: post /\ is_variable (kind q) = true /\
    forall r, In r pre -> is_variable (kind r) = false.
Proof.
  induction ps as [|p0 ps IH]; intros Hin Hk; [destruct Hin|].
  destruct (is_variable (kind p0)) eqn:H0.
  - exists [], p0, ps. split; [reflexivity|]. split; [assumption | intros r []].
  - destruct Hin as [->|Hin]; [congruence|].
    destruct (IH Hin Hk) as [pre [q [post [-> [Hq Hpre]]]]].
    exists (p0 :: pre), q, post. split; [reflexivity|]. split; [assumption|].
    intros r [<-|Hr]; [assumption | now apply Hpre].
Qed.
End Failure.

(** ** The message of the unsupported-kind error *)






(** * The claims of the specification *)

Section Claims.
Context {Value : Type}.
Implicit Types (p q : Param Value) (ps : list (Param Value))
  (s : store Value) (d : Dict.t Value) (v : Value) (f : Callable Value).

Lemma present_resolves p d v :
  Dict.getitem d (name p) = Some v -> resolves p d v.
Proof. intros H. apply resolves_iff. now left. Qed.

Lemma passes_iff p d :
  passes p d <->
  is_variable (kind p) = false /\
  (Dict.getitem d (name p) <> None \/ default p <> None).
Proof.
  unfold passes. split; intros [Hk H]; (split; [assumption|]).
  - destruct H as [v Hv]. apply resolves_iff in Hv.
    destruct Hv as [Hv|[_ Hv]]; [left | right]; congruence.
  - destruct (Dict.getitem d (name p)) as [v|] eqn:Hg.
    + exists v. now apply present_resolves.
    + destruct (default p) as [v|] eqn:Hd.
      * exists v. apply resolves_iff. now right.
      * destruct H; congruence.
Qed.

Lemma keyword_entries_combine d ps (kvs : Dict.t Value) vs :
  Forall2 (fun p kv => fst kv = name p /\ resolves p d (snd kv)) ps kvs ->
  Forall2 (fun p v => resolves p d v) ps vs ->
  kvs = combine (map name ps) vs.
Proof.
  intros H. revert vs.
  induction H as [|p0 [k0 v0] ps kvs [Hk Hv] _ IH]; intros vs Hvs;
    inversion Hvs; subst; simpl in *.
  - reflexivity.
  - f_equal; [|now apply IH]. rewrite Hk. f_equal.
    eapply resolves_fun; eassumption.
Qed.

Lemma filter_all {A} (g : A -> bool) (l : list A) :
  (forall x, In x l -> g x = true) -> filter g l = l.
Proof.
  induction l as [|x l IH]; simpl; intros H; [reflexivity|].
  rewrite (H x) by now left. f_equal. apply IH. auto.
Qed.

Lemma filter_none {A} (g : A -> bool) (l : list A) :
  (forall x, In x l -> g x = false) -> filter g l = [].
Proof.
  induction l as [|x l IH]; simpl; intros H; [reflexivity|].
  rewrite (H x) by now left. apply IH. auto.
Qed.

(** With no positional-only parameter the resolved call is the empty
    positional sequence and one keyword entry per parameter. *)
Lemma populate_args_keyword_only f d a k :
  (forall p, In p (parameters f) -> kind p <> POSITIONAL_ONLY) ->
  NoDup (map name (parameters f)) ->
  outcome (populate_args f) d = Return (a, k) ->
  a = [] /\
  Forall2 (fun p kv => fst kv = name p /\ resolves p d (snd kv)) (parameters f) k.
Proof.
  intros Hkind Hnd Hrun.
  destruct (populate_args_returns f d a k Hrun) as [s' [Hloop [<- <-]]].
  assert (Hpos : forall p, In p (parameters f) -> is_positional_only (kind p) = false).
  { intros p Hin. specialize (Hkind p Hin). now destruct (kind p). }
  split.
  - destruct (populate_loop_args _ _ _ Hloop) as [vs [Ha Hvs]].
    rewrite filter_none in Hvs by assumption. inversion Hvs; subst.
    now rewrite Ha.
  - destruct (populate_loop_kwargs _ _ _ Hloop Hnd) as [kvs [Hk Hkvs]].
    + intros p _ [].
    + rewrite filter_all in Hkvs.
      * simpl in Hk. now rewrite Hk.
      * intros p Hin. unfold passed_by_keyword. now rewrite Hpos.
Qed.

(** C1: for a callable whose parameters are all positional-or-keyword or
    keyword-only (their names distinct, as in every signature) and a
    data mapping holding a value under each parameter name,
    [call_with_args] gives exactly what the callable gives when called
    with those values passed by name and no positional argument. *)
Theorem call_with_args_calls_by_name f d vs :
  (forall p, In p (parameters f) ->
     kind p = POSITIONAL_OR_KEYWORD \/ kind p = KEYWORD_ONLY) ->
  NoDup (map name (parameters f)) ->
  Forall2 (fun p v => Dict.getitem d (name p) = Some v) (parameters f) vs ->
  outcome (call_with_args f) d = call f [] (combine (map name (parameters f)) vs).
Proof.
  intros Hkind Hnd Hvs.
  assert (Hres : Forall2 (fun p v => resolves p d v) (parameters f) vs).
  { eapply Forall2_impl; [|exact Hvs]. intros p v. apply present_resolves. }
  assert (Hpass : forall p, In p (parameters f) ->
            is_variable (kind p) = false /\ exists v, resolves p (data_map (enter d)) v).
  { intros p Hin. split.
    - destruct (Hkind p Hin) as [-> | ->]; reflexivity.
    - clear -Hres Hin. induction Hres as [|p0 v0 ps vs0 H0 _ IH]; [destruct Hin|].
      destruct Hin as [<-|Hin]; eauto. }
  destruct (populate_loop_total _ _ Hpass) as [s' Hloop].
  assert (Hrun : outcome (populate_args f) d = Return (args s', kwargs s')).
  { rewrite populate_args_outcome, Hloop. reflexivity. }
  assert (Hnopos : forall p, In p (parameters f) -> kind p <> POSITIONAL_ONLY).
  { intros p Hin. destruct (Hkind p Hin) as [-> | ->]; discriminate. }
  destruct (populate_args_keyword_only f d _ _ Hnopos Hnd Hrun) as [Ha Hk].
  rewrite call_with_args_outcome, Hrun. simpl. rewrite Ha.
  now rewrite (keyword_entries_combine d _ _ vs Hk Hres).
Qed.

(** C2, as the code has it: for a parameter without a default whose
    name is not a key of the data mapping, the lookup [_get_arg_value]
    raises [ParameterError] with exactly that name and the list of the
    mapping's keys; [populate_args] and [call_with_args] raise that
    error when the parameter is of a supported kind and every parameter
    declared before it is of a supported kind and is in the mapping or
    has a default. *)
Theorem missing_parameter_raises p d :
  default p = None ->
  Dict.getitem d (name p) = None ->
  outcome (_get_arg_value p) d = Raise (ParameterError (name p) (Dict.keys d))
  /\ forall f pre post,
       parameters f = pre ++ p :: post ->
       is_variable (kind p) = false ->
       (forall q, In q pre ->
          is_variable (kind q) = false /\
          (Dict.getitem d (name q) <> None \/ default q <> None)) ->
       outcome (populate_args f) d = Raise (ParameterError (name p) (Dict.keys d))
       /\ outcome (call_with_args f) d
          = Raise (ParameterError (name p) (Dict.keys d)).
Proof.
  intros Hd Hg. split.
  - unfold outcome. rewrite get_arg_value_run. simpl. now rewrite Hg, Hd.
  - intros f pre post Hf Hk Hpre.
    apply (populate_args_first_failure f d pre p post _ Hf).
    + intros q Hq. apply passes_iff. now apply Hpre.
    + right. auto.
Qed.

Lemma NoDup_map_filter {A B} (g : A -> B) (h : A -> bool) (l : list A) :
  NoDup (map g l) -> NoDup (map g (filter h l)).
Proof.
  induction l as [|x l IH]; simpl; intros Hnd; [constructor|].
  apply NoDup_cons_iff in Hnd. destruct Hnd as [Hx Hnd].
  destruct (h x); simpl; [|now apply IH].
  constructor; [|now apply IH].
  intros Hin. apply Hx. apply in_map_iff in Hin. destruct Hin as [y [Hy Hin]].
  apply filter_In in Hin. rewrite <- Hy. apply in_map. tauto.
Qed.

(** C3: a parameter with a default whose name is not a key of the data
    mapping resolves to that very default: the lookup returns it, no
    missing-parameter error is raised for it, and a resolved call holds
    it (at the parameter's rank among the positional-only ones, or under
    the parameter's name in the keyword mapping). *)
Theorem default_used_when_absent p d dv :
  default p = Some dv ->
  Dict.getitem d (name p) = None ->
  outcome (_get_arg_value p) d = Return dv
  /\ forall f pre post,
       parameters f = pre ++ p :: post ->
       NoDup (map name (parameters f)) ->
       (forall ks, outcome (populate_args f) d <> Raise (ParameterError (name p) ks))
       /\ forall a k,
            outcome (populate_args f) d = Return (a, k) ->
            if is_positional_only (kind p)
            then nth_error a
                   (length (filter (fun q => is_positional_only (kind q)) pre))
                 = Some dv
            else Dict.getitem k (name p) = Some dv.
Proof.
  intros Hd Hg.
  assert (Hres : resolves p d dv) by (apply resolves_iff; now right).
  split; [exact Hres|].
  intros f pre post Hf Hnd.
  assert (Hin : In p (parameters f)).
  { rewrite Hf. apply in_or_app. right. now left. }
  split.
  - intros ks Hrun.
    destruct (populate_args_raises f d _ Hrun) as [pre' [q [post' [Hf' [_ Hq]]]]].
    destruct Hq as [[_ He]|[_ [_ [Hdq He]]]]; [discriminate|].
    injection He as Hn _.
    assert (Hinq : In q (parameters f)).
    { rewrite Hf'. apply in_or_app. right. now left. }
    assert (p = q) by (apply (same_name_same_param _ _ _ Hnd Hin Hinq Hn)).
    subst q. congruence.
  - intros a k Hrun.
    destruct (populate_args_returns f d a k Hrun) as [s' [Hloop [<- <-]]].
    destruct (is_positional_only (kind p)) eqn:Hpos.
    + destruct (populate_loop_args _ _ _ Hloop) as [vs [Ha Hvs]].
      simpl in Ha, Hvs. rewrite Ha. rewrite Hf, filter_app in Hvs.
      simpl in Hvs. rewrite Hpos in Hvs.
      apply Forall2_app_inv_l in Hvs.
      destruct Hvs as [l1 [l2 [H1 [H2 ->]]]].
      inversion H2 as [|? y ? l2' Hy _]; subst.
      rewrite (Forall2_length H1), nth_error_app2, Nat.sub_diag by lia.
      simpl. f_equal. eapply resolves_fun; eassumption.
    + destruct (populate_loop_kwargs _ _ _ Hloop Hnd) as [kvs [Hk Hkvs]];
        [intros q _ []|].
      simpl in Hk, Hkvs. rewrite Hk.
      destruct (keyword_entries_getitem d _ kvs p Hkvs) as [v [Hv Hpv]].
      * now apply NoDup_map_filter.
      * apply filter_In. split; [assumption|].
        unfold passed_by_keyword. now rewrite Hpos.
      * rewrite Hv. f_equal. eapply resolves_fun; eassumption.
Qed.

(** The parameters declared before the first variable one either all
    pass, or one of them is the first to be missing. *)
Lemma supported_prefix_cases d pre :
  (forall q, In q pre -> is_variable (kind q) = false) ->
  (forall q, In q pre -> passes q d)
  \/ exists pre1 q pre2,
       pre = pre1 ++ q :: pre2 /\
       (forall r, In r pre1 -> passes r d) /\
       Dict.getitem d (name q) = None /\ default q = None.
Proof.
  induction pre as [|p0 pre IH]; intros Hsup; [left; intros q []|].
  destruct (param_cases p0 d) as [Hk|v Hk Hv|Hk Hg Hd].
  - rewrite (Hsup p0) in Hk by now left. discriminate.
  - destruct IH as [Hall|[pre1 [q [pre2 [-> [H1 [Hg Hd]]]]]]].
    + intros q Hq. apply Hsup. now right.
    + left. intros q [<-|Hq]; [split; eauto | now apply Hall].
    + right. exists (p0 :: pre1), q, pre2. split; [reflexivity|].
      split; [|tauto]. intros r [<-|Hr]; [split; eauto | now apply H1].
  - right. exists [], p0, pre. split; [reflexivity|].
    split; [intros r []|tauto].
Qed.

(** C4, as the code has it: for a callable whose signature declares a
    variable-positional or variable-keyword parameter, and whatever the
    data mapping, [populate_args] and [call_with_args] raise, and raise
    the same exception. With [p] the first variable parameter: it is
    the unsupported-kind [TypeError] of [p] when every parameter
    declared before [p] is in the mapping or has a default; otherwise
    it is the [ParameterError] of the first parameter declared before
    [p] that is neither. *)
Theorem variable_parameter_always_raises f d p0 :
  In p0 (parameters f) ->
  is_variable (kind p0) = true ->
  exists pre p post,
    parameters f = pre ++ p :: post /\
    is_variable (kind p) = true /\
    (forall q, In q pre -> is_variable (kind q) = false) /\
    (((forall q, In q pre -> Dict.getitem d (name q) <> None \/ default q <> None) /\
      outcome (populate_args f) d
        = Raise (TypeError (unsupported_message (kind p) (name p))) /\
      outcome (call_with_args f) d
        = Raise (TypeError (unsupported_message (kind p) (name p))))
     \/ (exists pre1 q pre2,
           pre = pre1 ++ q :: pre2 /\
           (forall r, In r pre1 ->
              Dict.getitem d (name r) <> None \/ default r <> None) /\
           Dict.getitem d (name q) = None /\ default q = None /\
           outcome (populate_args f) d
             = Raise (ParameterError (name q) (Dict.keys d)) /\
           outcome (call_with_args f) d
             = Raise (ParameterError (name q) (Dict.keys d)))) /\
    ((forall q, In q pre -> Dict.getitem d (name q) <> None \/ default q <> None) ->
     outcome (populate_args f) d
       = Raise (TypeError (unsupported_message (kind p) (name p))) /\
     outcome (call_with_args f) d
       = Raise (TypeError (unsupported_message (kind p) (name p)))) /\
    (forall pre1 q pre2,
       pre = pre1 ++ q :: pre2 ->
       (forall r, In r pre1 -> Dict.getitem d (name r) <> None \/ default r <> None) ->
       Dict.getitem d (name q) = None -> default q = None ->
       outcome (populate_args f) d = Raise (ParameterError (name q) (Dict.keys d)) /\
       outcome (call_with_args f) d = Raise (ParameterError (name q) (Dict.keys d))).
Proof.
  intros Hin Hvar.
  destruct (first_variable _ _ Hin Hvar) as [pre [p [post [Hf [Hp Hpre]]]]].
  exists pre, p, post. repeat (split; [assumption|]).
  assert (I1 : (forall q, In q pre ->
                  Dict.getitem d (name q) <> None \/ default q <> None) ->
               outcome (populate_args f) d
                 = Raise (TypeError (unsupported_message (kind p) (name p))) /\
               outcome (call_with_args f) d
                 = Raise (TypeError (unsupported_message (kind p) (name p)))).
  { intros Hall. apply (populate_args_first_failure f d pre p post _ Hf).
    - intros q Hq. apply passes_iff. split; [now apply Hpre | now apply Hall].
    - left. auto. }
  assert (I2 : forall pre1 q pre2,
             pre = pre1 ++ q :: pre2 ->
             (forall r, In r pre1 ->
                Dict.getitem d (name r) <> None \/ default r <> None) ->
             Dict.getitem d (name q) = None -> default q = None ->
             outcome (populate_args f) d
               = Raise (ParameterError (name q) (Dict.keys d)) /\
             outcome (call_with_args f) d
               = Raise (ParameterError (name q) (Dict.keys d))).
  { intros pre1 q pre2 Hpre12 H1 Hg Hd.
    apply (populate_args_first_failure f d pre1 q (pre2 ++ p :: post)).
    - rewrite Hf, Hpre12, <- app_assoc. reflexivity.
    - intros r Hr. apply passes_iff. split; [|now apply H1].
      apply Hpre. rewrite Hpre12. apply in_or_app. now left.
    - right. split; [|auto].
      apply Hpre. rewrite Hpre12. apply in_or_app. right. now left. }
  split; [|split; assumption].
  destruct (supported_prefix_cases d pre Hpre)
    as [Hall|[pre1 [q [pre2 [Hpre12 [H1 [Hg Hd]]]]]]].
  - assert (Hall' : forall q, In q pre ->
                      Dict.getitem d (name q) <> None \/ default q <> None).
    { intros q Hq. apply (proj1 (passes_iff q d)). now apply Hall. }
    left. split; [assumption | now apply I1].
  - assert (H1' : forall r, In r pre1 ->
                    Dict.getitem d (name r) <> None \/ default r <> None).
    { intros r Hr. apply (proj1 (passes_iff r d)). now apply H1. }
    right. exists pre1, q, pre2. repeat (split; [assumption|]).
    apply (I2 pre1 q pre2); assumption.
Qed.


(** C6: in a resolved call the positional values are, one for one and
    in declared order, the values of the positional-only parameters of
    the signature. *)
Theorem positional_values_in_declared_order f d a k :
  outcome (populate_args f) d = Return (a, k) ->
  Forall2 (fun p v => outcome (_get_arg_value p) d = Return v)
    (filter (fun p => is_positional_only (kind p)) (parameters f)) a.
Proof.
  intros Hrun.
  destruct (populate_args_returns f d a k Hrun) as [s' [Hloop [<- _]]].
  destruct (populate_loop_args _ _ _ Hloop) as [vs [Ha Hvs]].
  simpl in Ha. rewrite Ha. exact Hvs.
Qed.

(** On stores that agree on the parameters' names and on the locals,
    the loop ends the same way, up to the key list of a
    [ParameterError]. *)
Lemma populate_loop_agree ps s1 s2 :
  (forall p, In p ps ->
     Dict.getitem (data_map s1) (name p) = Dict.getitem (data_map s2) (name p)) ->
  args s1 = args s2 -> kwargs s1 = kwargs s2 ->
  match populate_loop ps s1, populate_loop ps s2 with
  | (Return _, t1), (Return _, t2) => args t1 = args t2 /\ kwargs t1 = kwargs t2
  | (Raise e1, _), (Raise e2, _) =>
      e1 = e2
      \/ exists p, In p ps /\ default p = None /\
                   Dict.getitem (data_map s1) (name p) = None /\
                   e1 = ParameterError (name p) (Dict.keys (data_map s1)) /\
                   e2 = ParameterError (name p) (Dict.keys (data_map s2))
  | _, _ => False
  end.
Proof.
  revert s1 s2. induction ps as [|p0 ps IH]; intros s1 s2 Hag Ha Hk.
  - simpl. unfold ret. auto.
  - assert (Hg0 := Hag p0 (or_introl eq_refl)).
    destruct (param_cases p0 (data_map s1)) as [Hv|v Hv Hr|Hv Hg Hd].
    + simpl. unfold bind. rewrite !populate_param_variable by assumption. now left.
    + assert (Hr2 : resolves p0 (data_map s2) v).
      { apply resolves_iff. apply resolves_iff in Hr. now rewrite <- Hg0. }
      rewrite (populate_loop_cons_resolved p0 ps s1 v Hv Hr).
      rewrite (populate_loop_cons_resolved p0 ps s2 v Hv Hr2).
      assert (Ha' : args (store_after p0 v s1) = args (store_after p0 v s2)).
      { unfold store_after. rewrite Ha, Hk.
        destruct (is_positional_only (kind p0)); reflexivity. }
      assert (Hk' : kwargs (store_after p0 v s1) = kwargs (store_after p0 v s2)).
      { unfold store_after. rewrite Ha, Hk.
        destruct (is_positional_only (kind p0)); reflexivity. }
      specialize (IH (store_after p0 v s1) (store_after p0 v s2)).
      rewrite !data_map_store_after in IH.
      assert (H' := IH (fun p Hp => Hag p (or_intror Hp)) Ha' Hk'). clear IH.
      destruct (populate_loop ps (store_after p0 v s1)) as [[[]|e1] t1];
        destruct (populate_loop ps (store_after p0 v s2)) as [[[]|e2] t2];
        try assumption.
      destruct H' as [->|[p [Hp H']]]; [now left|].
      right. exists p. split; [now right | assumption].
    + simpl. unfold bind.
      rewrite (populate_param_missing p0 s1) by assumption.
      rewrite (populate_param_missing p0 s2) by (try rewrite <- Hg0; assumption).
      right. exists p0. split; [now left | auto].
Qed.

(** C7, as the code has it: on two data mappings that agree on every
    declared parameter name, [populate_args] and [call_with_args] either
    end the same way (same result, same exception), or both raise the
    [ParameterError] of the same missing parameter, each with the key
    list of its own mapping. *)
Theorem extra_keys_only_reach_the_key_list f d1 d2 :
  agree_on_parameters f d1 d2 ->
  (outcome (populate_args f) d1 = outcome (populate_args f) d2 /\
   outcome (call_with_args f) d1 = outcome (call_with_args f) d2)
  \/ exists p,
       In p (parameters f) /\ default p = None /\
       Dict.getitem d1 (name p) = None /\ Dict.getitem d2 (name p) = None /\
       outcome (populate_args f) d1 = Raise (ParameterError (name p) (Dict.keys d1)) /\
       outcome (populate_args f) d2 = Raise (ParameterError (name p) (Dict.keys d2)) /\
       outcome (call_with_args f) d1 = Raise (ParameterError (name p) (Dict.keys d1)) /\
       outcome (call_with_args f) d2 = Raise (ParameterError (name p) (Dict.keys d2)).
Proof.
  intros Hag.
  pose proof (populate_loop_agree (parameters f) (enter d1) (enter d2) Hag
                eq_refl eq_refl) as H.
  rewrite !call_with_args_outcome, !populate_args_outcome.
  destruct (populate_loop (parameters f) (enter d1)) as [[[]|e1] t1];
    destruct (populate_loop (parameters f) (enter d2)) as [[[]|e2] t2];
    try contradiction.
  - destruct H as [-> ->]. now left.
  - destruct H as [->|[p [Hp [Hd [Hg [-> ->]]]]]]; [now left|].
    right. exists p. simpl in Hg. rewrite <- (Hag p Hp). auto 10.
Qed.

(** C8: when resolution succeeded and the callable raises on the
    resolved call, [call_with_args] raises that same exception. *)
Theorem callable_exception_propagates f d a k e :
  outcome (populate_args f) d = Return (a, k) ->
  call f a k = Raise e ->
  outcome (call_with_args f) d = Raise e.
Proof.
  intros Hrun Hcall. rewrite call_with_args_outcome, Hrun. exact Hcall.
Qed.

(** C9: [populate_args] and [call_with_args] leave the data mapping as
    they found it, whether they return or raise. *)
Theorem data_map_is_only_read f :
  (forall s, data_map (snd (populate_args f s)) = data_map s) /\
  (forall s, data_map (snd (call_with_args f s)) = data_map s) /\
  (forall d, data_map_after (populate_args f) d = d) /\
  (forall d, data_map_after (call_with_args f) d = d).
Proof.
  assert (Hp : forall s, data_map (snd (populate_args f s)) = data_map s).
  { intros s. rewrite populate_args_run.
    pose proof (populate_loop_frame (parameters f) (enter (data_map s))) as H.
    destruct (populate_loop _ _) as [[[]|e] s']; exact H. }
  assert (Hc : forall s, data_map (snd (call_with_args f s)) = data_map s).
  { intros s. specialize (Hp s). unfold call_with_args, bind, lift.
    destruct (populate_args f s) as [[r|e] s']; exact Hp. }
  split; [exact Hp|]. split; [exact Hc|].
  split; intros d; unfold data_map_after; [apply (Hp (enter d)) | apply (Hc (enter d))].
Qed.

Lemma keyword_entries_keys d ps (kvs : Dict.t Value) :
  Forall2 (fun p kv => fst kv = name p /\ resolves p d (snd kv)) ps kvs ->
  Dict.keys kvs = map name ps.
Proof.
  induction 1 as [|p0 kv ps kvs [Hk _] _ IH]; simpl; [reflexivity|].
  now rewrite Hk, IH.
Qed.

(** C10: for a signature without positional-only parameters a resolved
    call has no positional value; its keyword mapping has exactly the
    parameters' names as keys and holds under each name the value of
    that parameter. *)
Theorem no_positional_only_all_by_keyword f d a k :
  (forall p, In p (parameters f) -> kind p <> POSITIONAL_ONLY) ->
  NoDup (map name (parameters f)) ->
  outcome (populate_args f) d = Return (a, k) ->
  a = [] /\
  Dict.keys k = map name (parameters f) /\
  forall p, In p (parameters f) ->
    exists v, Dict.getitem k (name p) = Some v /\
              outcome (_get_arg_value p) d = Return v.
Proof.
  intros Hkind Hnd Hrun.
  destruct (populate_args_keyword_only f d a k Hkind Hnd Hrun) as [Ha Hk].
  split; [assumption|]. split.
  - apply (keyword_entries_keys d _ _ Hk).
  - intros p Hin. apply (keyword_entries_getitem d _ k p Hk Hnd Hin).
Qed.
End Claims.

(** * The claims on the docstring's callables *)

Ltac distinct_names := repeat constructor; simpl; intuition discriminate.

Lemma call_with_args_calls_by_name_witness :
  outcome (call_with_args py_abc)
    [("c", PyInt 5); ("zz", PyInt 0); ("a", PyInt 1); ("b", PyInt 3)]
  = call py_abc [] [("a", PyInt 1); ("b", PyInt 3); ("c", PyInt 5)].
Proof.
  apply (call_with_args_calls_by_name py_abc
           [("c", PyInt 5); ("zz", PyInt 0); ("a", PyInt 1); ("b", PyInt 3)]
           [PyInt 1; PyInt 3; PyInt 5]).
  - intros p [<-|[<-|[<-|[]]]]; left; reflexivity.
  - distinct_names.
  - repeat constructor.
Defined.

(** C2 fails as stated: on the empty mapping [def f(a, b)] raises the
    [ParameterError] of [a], not of [b], and [lambda *args: args]
    raises a [TypeError], though [b] and [args] have no default and are
    not keys of the mapping. *)
Lemma missing_parameter_counterexample :
  (In (mkParam "b" POSITIONAL_OR_KEYWORD None) (parameters py_ab)
   /\ default (mkParam (Value := pyval) "b" POSITIONAL_OR_KEYWORD None) = None
   /\ Dict.getitem (V := pyval) [] "b" = None
   /\ outcome (populate_args py_ab) [] = Raise (ParameterError "a" [])
   /\ outcome (call_with_args py_ab) [] = Raise (ParameterError "a" [])
   /\ outcome (populate_args py_ab) [] <> Raise (ParameterError "b" []))
  /\ (In (mkParam "args" VAR_POSITIONAL None) (parameters py_star_args)
      /\ default (mkParam (Value := pyval) "args" VAR_POSITIONAL None) = None
      /\ Dict.getitem (V := pyval) [] "args" = None
      /\ outcome (populate_args py_star_args) []
         = Raise (TypeError "Unable to populate VAR_POSITIONAL parameter 'args'")
      /\ outcome (populate_args py_star_args) [] <> Raise (ParameterError "args" [])).
Proof.
  split.
  - split; [right; left; reflexivity|].
    repeat (split; [reflexivity|]). discriminate.
  - split; [left; reflexivity|].
    repeat (split; [reflexivity|]). discriminate.
Qed.

Lemma missing_parameter_raises_witness :
  outcome (_get_arg_value (mkParam "b" POSITIONAL_OR_KEYWORD None))
    [("a", PyInt 1); ("c", PyInt 2)]
  = Raise (ParameterError "b" ["a"; "c"])
  /\ outcome (populate_args py_ab) [("a", PyInt 1); ("c", PyInt 2)]
     = Raise (ParameterError "b" ["a"; "c"])
  /\ outcome (call_with_args py_ab) [("a", PyInt 1); ("c", PyInt 2)]
     = Raise (ParameterError "b" ["a"; "c"]).
Proof.
  destruct (missing_parameter_raises (mkParam "b" POSITIONAL_OR_KEYWORD None)
              [("a", PyInt 1); ("c", PyInt 2)] eq_refl eq_refl) as [H1 H2].
  split; [exact H1|].
  apply (H2 py_ab [mkParam "a" POSITIONAL_OR_KEYWORD None] [] eq_refl eq_refl).
  intros q [<-|[]]. split; [reflexivity | left; discriminate].
Defined.

Lemma default_used_when_absent_witness :
  outcome (_get_arg_value (mkParam "y" POSITIONAL_OR_KEYWORD (Some (PyInt 7))))
    [("z", PyInt 3); ("x", PyInt 1)]
  = Return (PyInt 7)
  /\ Dict.getitem [("y", PyInt 7); ("z", PyInt 3)] "y" = Some (PyInt 7)
  /\ nth_error [PyInt 4; PyInt 9] 1 = Some (PyInt 9).
Proof.
  destruct (default_used_when_absent
              (mkParam "y" POSITIONAL_OR_KEYWORD (Some (PyInt 7)))
              [("z", PyInt 3); ("x", PyInt 1)] (PyInt 7) eq_refl eq_refl)
    as [H1 H2].
  split; [exact H1|]. split.
  - destruct (H2 py_xyz [mkParam "x" POSITIONAL_ONLY None]
                [mkParam "z" KEYWORD_ONLY None] eq_refl) as [_ H3];
      [distinct_names|].
    apply (H3 [PyInt 1] [("y", PyInt 7); ("z", PyInt 3)] eq_refl).
  - destruct (default_used_when_absent
                (mkParam "w" POSITIONAL_ONLY (Some (PyInt 9)))
                [("u", PyInt 4)] (PyInt 9) eq_refl eq_refl) as [_ H4].
    destruct (H4 py_pair [mkParam "u" POSITIONAL_ONLY None] [] eq_refl) as [_ H5];
      [distinct_names|].
    apply (H5 [PyInt 4; PyInt 9] [] eq_refl).
Defined.

(** C4 fails as stated: [def g(a, *rest)] on the empty mapping raises
    the [ParameterError] of [a], not the unsupported-kind [TypeError]. *)
Lemma variable_parameter_counterexample :
  In (mkParam "rest" VAR_POSITIONAL None) (parameters py_a_rest)
  /\ is_variable (kind (mkParam (Value := pyval) "rest" VAR_POSITIONAL None)) = true
  /\ outcome (populate_args py_a_rest) [] = Raise (ParameterError "a" [])
  /\ outcome (call_with_args py_a_rest) [] = Raise (ParameterError "a" [])
  /\ ~ (exists msg, outcome (populate_args py_a_rest) [] = Raise (TypeError msg))
  /\ ~ (exists msg, outcome (call_with_args py_a_rest) [] = Raise (TypeError msg)).
Proof.
  split; [right; left; reflexivity|].
  repeat (split; [reflexivity|]).
  split; intros [msg H]; discriminate H.
Qed.

Lemma variable_parameter_always_raises_witness :
  (exists pre p post,
     parameters py_a_rest = pre ++ p :: post /\
     is_variable (kind p) = true /\
     (forall q, In q pre -> is_variable (kind q) = false) /\
     outcome (populate_args py_a_rest) [("a", PyInt 1)]
       = Raise (TypeError (unsupported_message (kind p) (name p))) /\
     outcome (call_with_args py_a_rest) [("a", PyInt 1)]
       = Raise (TypeError (unsupported_message (kind p) (name p))))
  /\ (exists (pre : list (Param pyval)) (q : Param pyval),
        In q pre /\ (forall r, In r pre -> is_variable (kind r) = false) /\
        Dict.getitem (V := pyval) [] (name q) = None /\ default q = None /\
        outcome (populate_args py_a_rest) [] = Raise (ParameterError (name q) []) /\
        outcome (call_with_args py_a_rest) [] = Raise (ParameterError (name q) [])).
Proof.
  split.
  - destruct (variable_parameter_always_raises py_a_rest [("a", PyInt 1)]
                (mkParam "rest" VAR_POSITIONAL None))
      as [pre [p [post [Hf [Hp [Hpre [_ [H1 _]]]]]]]].
    + right; left; reflexivity.
    + reflexivity.
    + exists pre, p, post. repeat (split; [assumption|]).
      apply H1. intros q Hq.
      assert (Hin : In q (parameters py_a_rest)).
      { rewrite Hf. apply in_or_app. now left. }
      destruct Hin as [<-|[<-|[]]].
      * left. discriminate.
      * specialize (Hpre _ Hq). discriminate Hpre.
  - destruct (variable_parameter_always_raises py_a_rest []
                (mkParam "rest" VAR_POSITIONAL None))
      as [pre [p [post [Hf [Hp [Hpre [[[_ [H _]]|H] _]]]]]]].
    + right; left; reflexivity.
    + reflexivity.
    + discriminate H.
    + destruct H as [pre1 [q [pre2 [Hpre12 [_ [Hg [Hd [H2 H3]]]]]]]].
      exists pre, q. split; [rewrite Hpre12; apply in_or_app; right; now left|].
      repeat (split; [assumption|]). assumption.
Defined.

Example variable_parameter_after_present :
  outcome (populate_args py_a_rest) [("a", PyInt 1)]
  = Raise (TypeError "Unable to populate VAR_POSITIONAL parameter 'rest'").
Proof. reflexivity. Qed.


Lemma positional_values_in_declared_order_witness :
  Forall2 (fun p v => outcome (_get_arg_value p) [("w", PyInt 2); ("u", PyInt 4)]
                      = Return v)
    [mkParam "u" POSITIONAL_ONLY None; mkParam "w" POSITIONAL_ONLY (Some (PyInt 9))]
    [PyInt 4; PyInt 2].
Proof.
  apply (positional_values_in_declared_order py_pair
           [("w", PyInt 2); ("u", PyInt 4)] [PyInt 4; PyInt 2] []).
  reflexivity.
Defined.

(** C7 fails as stated: the empty mapping and [{'x': 1}] agree on the
    only parameter name of [def a(n)], and the two errors differ. *)
Lemma extra_keys_counterexample :
  agree_on_parameters py_a [] [("x", PyInt 1)]
  /\ outcome (populate_args py_a) [] = Raise (ParameterError "n" [])
  /\ outcome (populate_args py_a) [("x", PyInt 1)] = Raise (ParameterError "n" ["x"])
  /\ outcome (populate_args py_a) [] <> outcome (populate_args py_a) [("x", PyInt 1)]
  /\ outcome (call_with_args py_a) [] <> outcome (call_with_args py_a) [("x", PyInt 1)].
Proof.
  split; [intros p [<-|[]]; reflexivity|].
  repeat (split; [reflexivity|]).
  split; discriminate.
Qed.

Lemma extra_keys_only_reach_the_key_list_witness :
  (outcome (populate_args py_a) [("n", PyInt 5)]
   = outcome (populate_args py_a) [("s", PyInt 4); ("n", PyInt 5); ("tm", PyInt 3)]
   /\ outcome (call_with_args py_a) [("n", PyInt 5)]
      = outcome (call_with_args py_a) [("s", PyInt 4); ("n", PyInt 5); ("tm", PyInt 3)])
  \/ exists p,
       In p (parameters py_a) /\ default p = None /\
       Dict.getitem [("n", PyInt 5)] (name p) = None /\
       Dict.getitem [("s", PyInt 4); ("n", PyInt 5); ("tm", PyInt 3)] (name p) = None /\
       outcome (populate_args py_a) [("n", PyInt 5)]
       = Raise (ParameterError (name p) ["n"]) /\
       outcome (populate_args py_a) [("s", PyInt 4); ("n", PyInt 5); ("tm", PyInt 3)]
       = Raise (ParameterError (name p) ["s"; "n"; "tm"]) /\
       outcome (call_with_args py_a) [("n", PyInt 5)]
       = Raise (ParameterError (name p) ["n"]) /\
       outcome (call_with_args py_a) [("s", PyInt 4); ("n", PyInt 5); ("tm", PyInt 3)]
       = Raise (ParameterError (name p) ["s"; "n"; "tm"]).
Proof.
  apply (extra_keys_only_reach_the_key_list py_a [("n", PyInt 5)]
           [("s", PyInt 4); ("n", PyInt 5); ("tm", PyInt 3)]).
  intros p [<-|[]]. reflexivity.
Defined.

Lemma callable_exception_propagates_witness :
  outcome (call_with_args py_boom) [("n", PyInt 5)]
  = Raise (OtherError "ValueError" "boom").
Proof.
  apply (callable_exception_propagates py_boom [("n", PyInt 5)]
           [] [("n", PyInt 5)]); reflexivity.
Defined.

Lemma no_positional_only_all_by_keyword_witness :
  [] = @nil pyval /\
  Dict.keys [("a", PyInt 1); ("b", PyInt 3); ("c", PyInt 2)]
  = map name (parameters py_abc) /\
  forall p, In p (parameters py_abc) ->
    exists v,
      Dict.getitem [("a", PyInt 1); ("b", PyInt 3); ("c", PyInt 2)] (name p) = Some v /\
      outcome (_get_arg_value p) [("a", PyInt 1); ("b", PyInt 3)] = Return v.
Proof.
  apply (no_positional_only_all_by_keyword py_abc [("a", PyInt 1); ("b", PyInt 3)]).
  - intros p [<-|[<-|[<-|[]]]]; discriminate.
  - distinct_names.
  - reflexivity.
Defined.

(** * Further properties of the resolver *)

Section Further.
Context {Value : Type}.
Implicit Types (p q : Param Value) (ps : list (Param Value))
  (s : store Value) (d : Dict.t Value) (v : Value) (f : Callable Value).

(** The loop on parameters that all find their value, from any store
    whose [kwargs] has none of their names yet. *)
Lemma populate_loop_resolved ps vs s :
  Forall2 (fun p v => resolves p (data_map s) v) ps vs ->
  (forall p, In p ps -> is_variable (kind p) = false) ->
  NoDup (map name ps) ->
  (forall p, In p ps -> ~ In (name p) (Dict.keys (kwargs s))) ->
  populate_loop ps s =
  (Return tt,
   mkStore (data_map s)
     (args s ++ positional_values (combine ps vs))
     (kwargs s ++ keyword_entries (combine ps vs))).
Proof.
  revert vs s.
  induction ps as [|p0 ps IH]; intros vs s H Hsup Hnd Hfresh;
    inversion H as [|? v0 ? vs0 Hv0 Hrest]; subst; clear H.
  - simpl. unfold ret, positional_values, keyword_entries. simpl.
    rewrite !app_nil_r. now destruct s.
  - rewrite (populate_loop_cons_resolved p0 ps s v0 (Hsup p0 (or_introl eq_refl)) Hv0).
    simpl in Hnd. apply NoDup_cons_iff in Hnd. destruct Hnd as [Hp0 Hnd].
    rewrite (IH vs0 (store_after p0 v0 s)).
    + rewrite data_map_store_after.
      unfold positional_values, keyword_entries, store_after. simpl.
      unfold passed_by_keyword at 2.
      destruct (is_positional_only (kind p0)); simpl.
      * now rewrite <- app_assoc.
      * rewrite setitem_fresh by (apply Hfresh; now left).
        now rewrite <- app_assoc.
    + now rewrite data_map_store_after.
    + intros p Hin. apply Hsup. now right.
    + assumption.
    + intros p Hin. unfold store_after.
      destruct (is_positional_only (kind p0)); simpl.
      * apply Hfresh. now right.
      * rewrite in_keys_setitem. intros [He|Hi].
        -- apply Hp0. rewrite <- He. now apply in_map.
        -- apply (Hfresh p); [now right | assumption].
Qed.

Lemma populate_args_resolved f d vs :
  Forall2 (fun p v => resolves p d v) (parameters f) vs ->
  (forall p, In p (parameters f) -> is_variable (kind p) = false) ->
  NoDup (map name (parameters f)) ->
  outcome (populate_args f) d =
  Return (positional_values (combine (parameters f) vs),
          keyword_entries (combine (parameters f) vs)).
Proof.
  intros Hvs Hsup Hnd. rewrite populate_args_outcome.
  rewrite (populate_loop_resolved (parameters f) vs (enter d) Hvs Hsup Hnd).
  - reflexivity.
  - intros p _ [].
Qed.

(** X1: whatever the defaults, when every parameter is of a supported
    kind and takes the value [_get_arg_value] finds for it,
    [populate_args] returns the values of the positional-only
    parameters in declared order and one keyword entry per other
    parameter in declared order, and [call_with_args] is the callable
    applied to exactly these. *)
Theorem resolved_call_in_full f d vs :
  Forall2 (fun p v => outcome (_get_arg_value p) d = Return v) (parameters f) vs ->
  (forall p, In p (parameters f) -> is_variable (kind p) = false) ->
  NoDup (map name (parameters f)) ->
  outcome (populate_args f) d =
    Return (positional_values (combine (parameters f) vs),
            keyword_entries (combine (parameters f) vs))
  /\ outcome (call_with_args f) d =
       call f (positional_values (combine (parameters f) vs))
              (keyword_entries (combine (parameters f) vs)).
Proof.
  intros Hvs Hsup Hnd.
  pose proof (populate_args_resolved f d vs Hvs Hsup Hnd) as H.
  split; [exact H|]. now rewrite call_with_args_outcome, H.
Qed.

(** Where a parameter's value sits in a resolved call. *)
Lemma resolved_call_holds f d p v pre post a k :
  resolves p d v ->
  parameters f = pre ++ p :: post ->
  NoDup (map name (parameters f)) ->
  outcome (populate_args f) d = Return (a, k) ->
  if is_positional_only (kind p)
  then nth_error a (length (filter (fun q => is_positional_only (kind q)) pre))
       = Some v
  else Dict.getitem k (name p) = Some v.
Proof.
  intros Hres Hf Hnd Hrun.
  assert (Hin : In p (parameters f)).
  { rewrite Hf. apply in_or_app. right. now left. }
  destruct (populate_args_returns f d a k Hrun) as [s' [Hloop [<- <-]]].
  destruct (is_positional_only (kind p)) eqn:Hpos.
  - destruct (populate_loop_args _ _ _ Hloop) as [vs [Ha Hvs]].
    simpl in Ha, Hvs. rewrite Ha. rewrite Hf, filter_app in Hvs.
    simpl in Hvs. rewrite Hpos in Hvs.
    apply Forall2_app_inv_l in Hvs.
    destruct Hvs as [l1 [l2 [H1 [H2 ->]]]].
    inversion H2 as [|? y ? l2' Hy _]; subst.
    rewrite (Forall2_length H1), nth_error_app2, Nat.sub_diag by lia.
    simpl. f_equal. eapply resolves_fun; eassumption.
  - destruct (populate_loop_kwargs _ _ _ Hloop Hnd) as [kvs [Hk Hkvs]];
      [intros q _ []|].
    simpl in Hk, Hkvs. rewrite Hk.
    destruct (keyword_entries_getitem d _ kvs p Hkvs) as [w [Hw Hpw]].
    + now apply NoDup_map_filter.
    + apply filter_In. split; [assumption|].
      unfold passed_by_keyword. now rewrite Hpos.
    + rewrite Hw. f_equal. eapply resolves_fun; eassumption.
Qed.

(** X2: a value present in the data mapping wins over the parameter's
    default: the lookup returns the mapping's value, and a resolved
    call holds it at the parameter's rank among the positional-only
    parameters or under the parameter's name. *)
Theorem mapping_value_wins_over_default p d v :
  Dict.getitem d (name p) = Some v ->
  outcome (_get_arg_value p) d = Return v
  /\ forall f pre post a k,
       parameters f = pre ++ p :: post ->
       NoDup (map name (parameters f)) ->
       outcome (populate_args f) d = Return (a, k) ->
       if is_positional_only (kind p)
       then nth_error a (length (filter (fun q => is_positional_only (kind q)) pre))
            = Some v
       else Dict.getitem k (name p) = Some v.
Proof.
  intros Hg. pose proof (present_resolves p d v Hg) as Hres.
  split; [exact Hres|].
  intros f pre post a k. now apply resolved_call_holds.
Qed.

Lemma populate_args_returns_iff f d :
  (exists a k, outcome (populate_args f) d = Return (a, k)) <->
  forall p, In p (parameters f) -> passes p d.
Proof.
  split.
  - intros [a [k Hrun]] p Hin.
    destruct (populate_args_returns f d a k Hrun) as [s' [Hloop _]].
    apply (populate_loop_returns _ _ _ Hloop p Hin).
  - intros Hall.
    destruct (populate_loop_total (parameters f) (enter d) Hall) as [s' Hloop].
    exists (args s'), (kwargs s'). now rewrite populate_args_outcome, Hloop.
Qed.

(** X3: [populate_args] returns exactly when every declared parameter
    is of a supported kind and is in the data mapping or has a
    default. *)
Theorem populate_args_succeeds_iff f d :
  (exists a k, outcome (populate_args f) d = Return (a, k)) <->
  forall p, In p (parameters f) ->
    is_variable (kind p) = false /\
    (Dict.getitem d (name p) <> None \/ default p <> None).
Proof.
  rewrite populate_args_returns_iff.
  split; intros H p Hin; apply passes_iff; now apply H.
Qed.

(** X4: [populate_args] raises [e] exactly when [e] is the exception of
    the first declared parameter that is of a variable kind or is
    missing without a default: declared order decides which error a
    caller sees. *)
Theorem first_failing_parameter_decides f d e :
  outcome (populate_args f) d = Raise e <->
  exists pre p post,
    parameters f = pre ++ p :: post /\
    (forall q, In q pre ->
       is_variable (kind q) = false /\
       (Dict.getitem d (name q) <> None \/ default q <> None)) /\
    ((is_variable (kind p) = true /\
      e = TypeError (unsupported_message (kind p) (name p)))
     \/ (is_variable (kind p) = false /\
         Dict.getitem d (name p) = None /\ default p = None /\
         e = ParameterError (name p) (Dict.keys d))).
Proof.
  split.
  - intros Hrun.
    destruct (populate_args_raises f d e Hrun) as [pre [p [post [Hf [Hpre Hp]]]]].
    exists pre, p, post. split; [assumption|]. split; [|exact Hp].
    intros q Hq. apply passes_iff. now apply Hpre.
  - intros [pre [p [post [Hf [Hpre Hp]]]]].
    apply (populate_args_first_failure f d pre p post e Hf); [|exact Hp].
    intros q Hq. apply passes_iff. now apply Hpre.
Qed.

Lemma filter_split_length {A} (g : A -> bool) (l : list A) :
  length (filter g l) + length (filter (fun x => negb (g x)) l) = length l.
Proof.
  induction l as [|x l IH]; simpl; [reflexivity|].
  destruct (g x); simpl; lia.
Qed.

(** X6: in a resolved call every declared parameter is represented
    exactly once: the keys of the keyword mapping are the names of the
    parameters that are not positional-only, in declared order, and the
    positional sequence has one value per positional-only parameter. *)
Theorem every_parameter_represented_once f d a k :
  NoDup (map name (parameters f)) ->
  outcome (populate_args f) d = Return (a, k) ->
  Dict.keys k = map name (filter passed_by_keyword (parameters f)) /\
  length a = length (filter (fun p => is_positional_only (kind p)) (parameters f)) /\
  length a + length k = length (parameters f).
Proof.
  intros Hnd Hrun.
  destruct (populate_args_returns f d a k Hrun) as [s' [Hloop [<- <-]]].
  destruct (populate_loop_kwargs _ _ _ Hloop Hnd) as [kvs [Hk Hkvs]];
    [intros q _ []|].
  destruct (populate_loop_args _ _ _ Hloop) as [vs [Ha Hvs]].
  simpl in Hk, Ha. rewrite Hk, Ha.
  assert (Hkeys := keyword_entries_keys _ _ _ Hkvs).
  assert (Hlen := Forall2_length Hvs).
  assert (Hlenk := Forall2_length Hkvs).
  split; [assumption|]. split; [now symmetry|].
  rewrite <- Hlen, <- Hlenk.
  apply (filter_split_length (fun p => is_positional_only (kind p))).
Qed.

Lemma in_setitem {V} (m : Dict.t V) (k k' : string) (x x' : V) :
  In (k', x') (Dict.setitem m k x) -> (k' = k /\ x' = x) \/ In (k', x') m.
Proof.
  induction m as [|[k0 x0] m IH]; simpl.
  - intros [[= <- <-]|[]]. now left.
  - destruct (String.eqb k0 k); simpl.
    + intros [[= <- <-]|H]; [now left | right; now right].
    + intros [H|H]; [right; now left|].
      destruct (IH H) as [H'|H']; [now left | right; now right].
Qed.

Lemma Forall2_in_r {A B} (R : A -> B -> Prop) l l' y :
  Forall2 R l l' -> In y l' -> exists x, In x l /\ R x y.
Proof.
  induction 1 as [|x0 y0 l l' H0 _ IH]; intros Hin; [destruct Hin|].
  destruct Hin as [<-|Hin].
  - exists x0. split; [now left | assumption].
  - destruct (IH Hin) as [x [Hx HR]]. exists x. split; [now right | assumption].
Qed.

(** Every entry of [kwargs] after the loop was there before or is a
    parameter's name with the value found for it. *)
Lemma populate_loop_kwargs_from ps s s' key v :
  populate_loop ps s = (Return tt, s') ->
  In (key, v) (kwargs s') ->
  In (key, v) (kwargs s)
  \/ exists p, In p ps /\ name p = key /\ is_positional_only (kind p) = false /\
               resolves p (data_map s) v.
Proof.
  revert s. induction ps as [|p0 ps IH]; intros s Hrun Hin.
  - injection Hrun as <-. now left.
  - destruct (populate_loop_returns _ _ _ Hrun p0 (or_introl eq_refl)) as [Hk [v0 Hv0]].
    rewrite (populate_loop_cons_resolved p0 ps s v0 Hk Hv0) in Hrun.
    destruct (IH _ Hrun Hin) as [H|[p [Hp [Hn [Hpos Hres]]]]].
    + unfold store_after in H.
      destruct (is_positional_only (kind p0)) eqn:Hpos0; simpl in H; [now left|].
      destruct (in_setitem _ _ _ _ _ H) as [[-> ->]|H']; [|now left].
      right. exists p0. split; [now left | auto].
    + rewrite data_map_store_after in Hres.
      right. exists p. split; [now right | auto].
Qed.

(** X7: a resolved call holds nothing but values of declared
    parameters: each positional value belongs to a positional-only
    parameter, each keyword entry is the name of a positional-or-keyword
    or keyword-only parameter, and the value is the data mapping's under
    that name or else the parameter's default. No other key of the data
    mapping reaches the callable. *)
Theorem resolved_call_only_holds_parameters f d a k :
  outcome (populate_args f) d = Return (a, k) ->
  (forall v, In v a ->
     exists p, In p (parameters f) /\ kind p = POSITIONAL_ONLY /\
       (Dict.getitem d (name p) = Some v
        \/ (Dict.getitem d (name p) = None /\ default p = Some v)))
  /\ (forall key v, In (key, v) k ->
        exists p, In p (parameters f) /\ name p = key /\
          (kind p = POSITIONAL_OR_KEYWORD \/ kind p = KEYWORD_ONLY) /\
          (Dict.getitem d key = Some v
           \/ (Dict.getitem d key = None /\ default p = Some v))).
Proof.
  intros Hrun.
  destruct (populate_args_returns f d a k Hrun) as [s' [Hloop [<- <-]]].
  split.
  - intros v Hin.
    destruct (populate_loop_args _ _ _ Hloop) as [vs [Ha Hvs]].
    simpl in Ha. rewrite Ha in Hin.
    destruct (Forall2_in_r _ _ _ _ Hvs Hin) as [p [Hp Hres]].
    apply filter_In in Hp. destruct Hp as [Hp Hpos].
    exists p. split; [assumption|]. split.
    + now destruct (kind p).
    + now apply resolves_iff.
  - intros key v Hin.
    destruct (populate_loop_kwargs_from _ _ _ _ _ Hloop Hin)
      as [[]|[p [Hp [Hn [Hpos Hres]]]]].
    destruct (populate_loop_returns _ _ _ Hloop p Hp) as [Hvar _].
    exists p. split; [assumption|]. split; [assumption|]. split.
    + destruct (kind p); simpl in *; try discriminate; auto.
    + rewrite <- Hn. now apply resolves_iff.
Qed.

(** X8: a [ParameterError] raised by [populate_args] reports the keys
    of the data mapping, and the name it carries is not one of them: it
    is the name of a declared parameter of a supported kind without a
    default. *)
Theorem missing_name_is_not_a_reported_key f d n ks :
  outcome (populate_args f) d = Raise (ParameterError n ks) ->
  ks = Dict.keys d /\ ~ In n ks /\
  exists p, In p (parameters f) /\ name p = n /\ default p = None /\
            is_variable (kind p) = false.
Proof.
  intros Hrun.
  destruct (populate_args_raises f d _ Hrun) as [pre [p [post [Hf [_ Hp]]]]].
  destruct Hp as [[_ He]|[Hk [Hg [Hd He]]]]; [discriminate|].
  injection He as -> ->.
  split; [reflexivity|]. split; [now apply getitem_None_keys|].
  exists p. split; [|auto]. rewrite Hf. apply in_or_app. right. now left.
Qed.

(** X9: on the empty data mapping [populate_args] returns exactly when
    every parameter is of a supported kind and has a default, and then
    [call_with_args] calls the callable with the defaults, each passed
    explicitly. *)
Theorem empty_mapping_passes_the_defaults f :
  ((exists a k, outcome (populate_args f) Dict.empty = Return (a, k)) <->
   forall p, In p (parameters f) ->
     is_variable (kind p) = false /\ default p <> None)
  /\ forall vs,
       Forall2 (fun p v => default p = Some v) (parameters f) vs ->
       (forall p, In p (parameters f) -> is_variable (kind p) = false) ->
       NoDup (map name (parameters f)) ->
       outcome (call_with_args f) Dict.empty =
       call f (positional_values (combine (parameters f) vs))
              (keyword_entries (combine (parameters f) vs)).
Proof.
  split.
  - rewrite populate_args_returns_iff.
    split; intros H p Hin; specialize (H p Hin).
    + apply passes_iff in H. destruct H as [Hk [H|H]]; [now elim H | auto].
    + apply passes_iff. destruct H as [Hk H]. auto.
  - intros vs Hvs Hsup Hnd. rewrite call_with_args_outcome.
    rewrite (populate_args_resolved f Dict.empty vs); [reflexivity | | assumption..].
    eapply Forall2_impl; [|exact Hvs].
    intros p v Hd. apply resolves_iff. right. split; [reflexivity | assumption].
Qed.

(** X10: keys added to the data mapping never turn a resolution that
    succeeds into one that fails. *)
Theorem more_keys_never_break_resolution f d d' :
  (forall p, In p (parameters f) ->
     Dict.getitem d (name p) <> None -> Dict.getitem d' (name p) <> None) ->
  (exists a k, outcome (populate_args f) d = Return (a, k)) ->
  exists a' k', outcome (populate_args f) d' = Return (a', k').
Proof.
  intros Hmore Hrun. apply populate_args_returns_iff.
  intros p Hin. apply passes_iff.
  pose proof (proj1 (populate_args_returns_iff f d) Hrun p Hin) as Hp.
  apply passes_iff in Hp. destruct Hp as [Hk [H|H]]; auto.
Qed.
Lemma Forall2_impl_in {A B} (R Q : A -> B -> Prop) l l' :
  Forall2 R l l' ->
  (forall x y, In x l -> In y l' -> R x y -> Q x y) ->
  Forall2 Q l l'.
Proof.
  induction 1 as [|x0 y0 l l' H0 _ IH]; intros Himp; constructor.
  - apply Himp; [now left | now left | assumption].
  - apply IH. intros x y Hx Hy. apply Himp; now right.
Qed.

Lemma Forall2_map_right {A B C} (R : A -> C -> Prop) (g : B -> C) l l' :
  Forall2 (fun x y => R x (g y)) l l' -> Forall2 R l (map g l').
Proof. induction 1; simpl; constructor; assumption. Qed.

(** Entries listed under the parameters' names are what the loop
    rebuilds from their values. *)
Lemma keyword_entries_rebuild ps (kvs : Dict.t Value) :
  Forall2 (fun p kv => fst kv = name p) ps kvs ->
  (forall p, In p ps -> is_positional_only (kind p) = false) ->
  positional_values (combine ps (map snd kvs)) = [] /\
  keyword_entries (combine ps (map snd kvs)) = kvs.
Proof.
  unfold positional_values, keyword_entries.
  induction 1 as [|p0 [k0 v0] ps kvs Hk _ IH]; intros Hpos; simpl; [split; reflexivity|].
  unfold passed_by_keyword at 1. simpl.
  rewrite (Hpos p0) by now left. simpl in *.
  destruct IH as [IH1 IH2]; [intros p Hp; apply Hpos; now right|].
  rewrite IH1, IH2, Hk. split; reflexivity.
Qed.

(** X11: for a signature without positional-only parameters the
    keyword mapping of a resolved call resolves to itself: used as the
    data mapping it gives back the same resolved call, and
    [call_with_args] gives the same outcome on it as on the original
    mapping. *)
Theorem resolved_keywords_resolve_to_themselves f d a k :
  (forall p, In p (parameters f) -> kind p <> POSITIONAL_ONLY) ->
  NoDup (map name (parameters f)) ->
  outcome (populate_args f) d = Return (a, k) ->
  outcome (populate_args f) k = Return (a, k)
  /\ outcome (call_with_args f) k = outcome (call_with_args f) d.
Proof.
  intros Hkind Hnd Hrun.
  destruct (populate_args_keyword_only f d a k Hkind Hnd Hrun) as [-> Hk].
  assert (Hsup : forall p, In p (parameters f) -> is_variable (kind p) = false).
  { intros p Hin.
    destruct (populate_args_returns f d _ _ Hrun) as [s' [Hloop _]].
    apply (populate_loop_returns _ _ _ Hloop p Hin). }
  assert (Hpos : forall p, In p (parameters f) -> is_positional_only (kind p) = false).
  { intros p Hin. specialize (Hkind p Hin). now destruct (kind p). }
  assert (Hvs : Forall2 (fun p v => resolves p k v) (parameters f) (map snd k)).
  { apply Forall2_map_right.
    apply (Forall2_impl_in _ _ _ _ Hk). intros p kv Hp _ [_ Hres].
    destruct (keyword_entries_getitem d _ k p Hk Hnd Hp) as [w [Hw Hres']].
    apply present_resolves. rewrite Hw. f_equal.
    eapply resolves_fun; eassumption. }
  assert (Hnames : Forall2 (fun p kv => fst kv = name p) (parameters f) k).
  { eapply Forall2_impl; [|exact Hk]. intros p kv [H _]. exact H. }
  destruct (keyword_entries_rebuild _ _ Hnames Hpos) as [E1 E2].
  assert (Hk' : outcome (populate_args f) k = Return ([], k)).
  { rewrite (populate_args_resolved f k (map snd k) Hvs Hsup Hnd).
    now rewrite E1, E2. }
  split; [exact Hk'|].
  now rewrite !call_with_args_outcome, Hk', Hrun.
Qed.

Section EntryOrder.
Import Dict.

Lemma getitem_permutation (d1 d2 : Dict.t Value) key :
  Permutation d1 d2 -> NoDup (keys d1) -> getitem d1 key = getitem d2 key.
Proof.
  induction 1 as [|[k0 v0] l l' Hp IH|[k0 v0] [k1 v1] l|l l' l'' H1 IH1 H2 IH2];
    intros Hnd; simpl in *.
  - reflexivity.
  - apply NoDup_cons_iff in Hnd. rewrite IH by tauto. reflexivity.
  - destruct (String.eqb_spec k0 key) as [->|H0];
      destruct (String.eqb_spec k1 key) as [->|H1]; try reflexivity.
    exfalso. apply NoDup_cons_iff in Hnd. destruct Hnd as [Hn _].
    apply Hn. now left.
  - rewrite IH1 by assumption. apply IH2.
    apply (Permutation_NoDup (l := keys l)); [|assumption].
    unfold keys. now apply Permutation_map.
Qed.
End EntryOrder.

(** On mappings that agree on the declared names the two functions end
    the same way, up to the key list of a [ParameterError]. *)
Lemma populate_args_agree f d1 d2 :
  agree_on_parameters f d1 d2 ->
  (outcome (populate_args f) d1 = outcome (populate_args f) d2 /\
   outcome (call_with_args f) d1 = outcome (call_with_args f) d2)
  \/ exists p,
       In p (parameters f) /\
       outcome (populate_args f) d1 = Raise (ParameterError (name p) (Dict.keys d1)) /\
       outcome (populate_args f) d2 = Raise (ParameterError (name p) (Dict.keys d2)) /\
       outcome (call_with_args f) d1 = Raise (ParameterError (name p) (Dict.keys d1)) /\
       outcome (call_with_args f) d2 = Raise (ParameterError (name p) (Dict.keys d2)).
Proof.
  intros Hag.
  pose proof (populate_loop_agree (parameters f) (enter d1) (enter d2) Hag
                eq_refl eq_refl) as H.
  rewrite !call_with_args_outcome, !populate_args_outcome.
  destruct (populate_loop (parameters f) (enter d1)) as [[[]|e1] t1];
    destruct (populate_loop (parameters f) (enter d2)) as [[[]|e2] t2];
    try contradiction.
  - destruct H as [-> ->]. now left.
  - destruct H as [->|[p [Hp [_ [_ [-> ->]]]]]]; [now left|].
    right. exists p. auto.
Qed.

(** X12: the order of the entries of the data mapping is immaterial:
    two mappings with the same entries in a different order give the
    same resolved call and the same outcome of [call_with_args], except
    that a [ParameterError] lists the keys in each mapping's own
    order. *)
Theorem entry_order_only_reaches_the_key_list f d1 d2 :
  Permutation d1 d2 ->
  NoDup (Dict.keys d1) ->
  (outcome (populate_args f) d1 = outcome (populate_args f) d2 /\
   outcome (call_with_args f) d1 = outcome (call_with_args f) d2)
  \/ exists n,
       Permutation (Dict.keys d1) (Dict.keys d2) /\
       outcome (populate_args f) d1 = Raise (ParameterError n (Dict.keys d1)) /\
       outcome (populate_args f) d2 = Raise (ParameterError n (Dict.keys d2)) /\
       outcome (call_with_args f) d1 = Raise (ParameterError n (Dict.keys d1)) /\
       outcome (call_with_args f) d2 = Raise (ParameterError n (Dict.keys d2)).
Proof.
  intros Hperm Hnd.
  destruct (populate_args_agree f d1 d2) as [H|[p [_ H]]].
  - intros p _. now apply getitem_permutation.
  - now left.
  - right. exists (name p). split; [|exact H].
    unfold Dict.keys. now apply Permutation_map.
Qed.

Lemma populate_args_frame f s :
  data_map (snd (populate_args f s)) = data_map s.
Proof.
  rewrite populate_args_run.
  pose proof (populate_loop_frame (parameters f) (enter (data_map s))) as H.
  destruct (populate_loop _ _) as [[[]|e] s']; exact H.
Qed.

Lemma call_with_args_frame f s :
  data_map (snd (call_with_args f s)) = data_map s.
Proof.
  pose proof (populate_args_frame f s) as H.
  unfold call_with_args, bind, lift.
  destruct (populate_args f s) as [[r|e] s']; exact H.
Qed.

Lemma populate_args_any_store f s :
  fst (populate_args f s) = outcome (populate_args f) (data_map s).
Proof.
  unfold outcome. rewrite !populate_args_run. simpl.
  destruct (populate_loop _ _) as [[[]|e] s']; reflexivity.
Qed.

Lemma call_with_args_any_store f s :
  fst (call_with_args f s) = outcome (call_with_args f) (data_map s).
Proof.
  rewrite call_with_args_outcome, <- populate_args_any_store.
  unfold call_with_args, bind, lift.
  destruct (populate_args f s) as [[r|e] s']; reflexivity.
Qed.

(** X13: a call leaves nothing behind that a later call could see:
    whatever [populate_args] or [call_with_args] did before on the
    same data mapping, and whether it returned or raised, the next call
    gives what it gives when run first. *)
Theorem successive_calls_are_independent f g s :
  fst (populate_args g (snd (populate_args f s))) = fst (populate_args g s)
  /\ fst (call_with_args g (snd (call_with_args f s))) = fst (call_with_args g s)
  /\ fst (call_with_args g (snd (populate_args f s))) = fst (call_with_args g s)
  /\ fst (populate_args g (snd (call_with_args f s))) = fst (populate_args g s).
Proof.
  rewrite !populate_args_any_store, !call_with_args_any_store.
  rewrite !populate_args_frame, !call_with_args_frame. auto.
Qed.
End Further.

(** * The further properties on the docstring's callables *)

Lemma resolved_call_in_full_witness :
  outcome (populate_args py_xyz) [("z", PyInt 3); ("x", PyInt 1)]
  = Return ([PyInt 1], [("y", PyInt 7); ("z", PyInt 3)])
  /\ outcome (call_with_args py_xyz) [("z", PyInt 3); ("x", PyInt 1)]
     = call py_xyz [PyInt 1] [("y", PyInt 7); ("z", PyInt 3)].
Proof.
  apply (resolved_call_in_full py_xyz [("z", PyInt 3); ("x", PyInt 1)]
           [PyInt 1; PyInt 7; PyInt 3]).
  - repeat constructor.
  - intros p [<-|[<-|[<-|[]]]]; reflexivity.
  - distinct_names.
Defined.

Lemma mapping_value_wins_over_default_witness :
  outcome (_get_arg_value (mkParam "b" POSITIONAL_OR_KEYWORD (Some (PyInt 1))))
    [("a", PyInt 1); ("b", PyInt 3)]
  = Return (PyInt 3)
  /\ Dict.getitem [("a", PyInt 1); ("b", PyInt 3); ("c", PyInt 2)] "b"
     = Some (PyInt 3).
Proof.
  destruct (mapping_value_wins_over_default
              (mkParam "b" POSITIONAL_OR_KEYWORD (Some (PyInt 1)))
              [("a", PyInt 1); ("b", PyInt 3)] (PyInt 3) eq_refl) as [H1 H2].
  split; [exact H1|].
  apply (H2 py_abc [mkParam "a" POSITIONAL_OR_KEYWORD None]
           [mkParam "c" POSITIONAL_OR_KEYWORD (Some (PyInt 2))]
           [] [("a", PyInt 1); ("b", PyInt 3); ("c", PyInt 2)] eq_refl);
    [distinct_names | reflexivity].
Defined.

Lemma populate_args_succeeds_iff_witness :
  exists a k, outcome (populate_args py_abc) [("a", PyInt 1)] = Return (a, k).
Proof.
  apply (proj2 (populate_args_succeeds_iff py_abc [("a", PyInt 1)])).
  intros p [<-|[<-|[<-|[]]]]; (split; [reflexivity|]);
    [left | right | right]; discriminate.
Defined.

Lemma first_failing_parameter_decides_witness :
  outcome (populate_args py_a_rest) [] = Raise (ParameterError "a" []).
Proof.
  apply (proj2 (first_failing_parameter_decides py_a_rest []
                  (ParameterError "a" []))).
  exists [], (mkParam "a" POSITIONAL_OR_KEYWORD None),
    [mkParam "rest" VAR_POSITIONAL None].
  split; [reflexivity|]. split; [intros q []|].
  right. repeat (split; [reflexivity|]). reflexivity.
Defined.

Lemma every_parameter_represented_once_witness :
  Dict.keys [("y", PyInt 7); ("z", PyInt 3)]
  = map name (filter passed_by_keyword (parameters py_xyz)) /\
  length [PyInt 1]
  = length (filter (fun p => is_positional_only (kind p)) (parameters py_xyz)) /\
  length [PyInt 1] + length [("y", PyInt 7); ("z", PyInt 3)]
  = length (parameters py_xyz).
Proof.
  apply (every_parameter_represented_once py_xyz [("z", PyInt 3); ("x", PyInt 1)]);
    [distinct_names | reflexivity].
Defined.

Lemma resolved_call_only_holds_parameters_witness :
  (forall v, In v [PyInt 1] ->
     exists p, In p (parameters py_xyz) /\ kind p = POSITIONAL_ONLY /\
       (Dict.getitem [("z", PyInt 3); ("x", PyInt 1); ("w", PyInt 0)] (name p) = Some v
        \/ (Dict.getitem [("z", PyInt 3); ("x", PyInt 1); ("w", PyInt 0)] (name p) = None
            /\ default p = Some v)))
  /\ (forall key v,
        In (key, v) [("y", PyInt 7); ("z", PyInt 3)] ->
        exists p, In p (parameters py_xyz) /\ name p = key /\
          (kind p = POSITIONAL_OR_KEYWORD \/ kind p = KEYWORD_ONLY) /\
          (Dict.getitem [("z", PyInt 3); ("x", PyInt 1); ("w", PyInt 0)] key = Some v
           \/ (Dict.getitem [("z", PyInt 3); ("x", PyInt 1); ("w", PyInt 0)] key = None
               /\ default p = Some v))).
Proof.
  apply (resolved_call_only_holds_parameters py_xyz
           [("z", PyInt 3); ("x", PyInt 1); ("w", PyInt 0)] [PyInt 1]
           [("y", PyInt 7); ("z", PyInt 3)] eq_refl).
Defined.

Lemma missing_name_is_not_a_reported_key_witness :
  ["other"] = Dict.keys [("other", PyStr "foo")] /\ ~ In "param" ["other"] /\
  exists p, In p (parameters py_func) /\ name p = "param" /\ default p = None /\
            is_variable (kind p) = false.
Proof.
  apply (missing_name_is_not_a_reported_key py_func [("other", PyStr "foo")]
           "param" ["other"] eq_refl).
Defined.

Lemma empty_mapping_passes_the_defaults_witness :
  (exists a k, outcome (populate_args py_bc) Dict.empty = Return (a, k))
  /\ outcome (call_with_args py_bc) Dict.empty
     = call py_bc [] [("b", PyInt 1); ("c", PyInt 2)].
Proof.
  destruct (empty_mapping_passes_the_defaults py_bc) as [H1 H2].
  split.
  - apply (proj2 H1).
    intros p [<-|[<-|[]]]; (split; [reflexivity | discriminate]).
  - apply (H2 [PyInt 1; PyInt 2]).
    + repeat constructor.
    + intros p [<-|[<-|[]]]; reflexivity.
    + distinct_names.
Defined.

Lemma more_keys_never_break_resolution_witness :
  exists a' k',
    outcome (populate_args py_abc) [("b", PyInt 3); ("a", PyInt 1)] = Return (a', k').
Proof.
  apply (more_keys_never_break_resolution py_abc [("a", PyInt 1)]
           [("b", PyInt 3); ("a", PyInt 1)]).
  - intros p [<-|[<-|[<-|[]]]]; simpl; intros H; congruence.
  - exists [], [("a", PyInt 1); ("b", PyInt 1); ("c", PyInt 2)]. reflexivity.
Defined.

Lemma resolved_keywords_resolve_to_themselves_witness :
  outcome (populate_args py_abc) [("a", PyInt 1); ("b", PyInt 3); ("c", PyInt 2)]
  = Return ([], [("a", PyInt 1); ("b", PyInt 3); ("c", PyInt 2)])
  /\ outcome (call_with_args py_abc) [("a", PyInt 1); ("b", PyInt 3); ("c", PyInt 2)]
     = outcome (call_with_args py_abc) [("b", PyInt 3); ("a", PyInt 1)].
Proof.
  apply (resolved_keywords_resolve_to_themselves py_abc
           [("b", PyInt 3); ("a", PyInt 1)]).
  - intros p [<-|[<-|[<-|[]]]]; discriminate.
  - distinct_names.
  - reflexivity.
Defined.

Lemma entry_order_only_reaches_the_key_list_witness :
  (outcome (populate_args py_func) [("other", PyStr "foo"); ("more", PyInt 1)]
   = outcome (populate_args py_func) [("more", PyInt 1); ("other", PyStr "foo")]
   /\ outcome (call_with_args py_func) [("other", PyStr "foo"); ("more", PyInt 1)]
      = outcome (call_with_args py_func) [("more", PyInt 1); ("other", PyStr "foo")])
  \/ exists n,
       Permutation ["other"; "more"] ["more"; "other"] /\
       outcome (populate_args py_func) [("other", PyStr "foo"); ("more", PyInt 1)]
       = Raise (ParameterError n ["other"; "more"]) /\
       outcome (populate_args py_func) [("more", PyInt 1); ("other", PyStr "foo")]
       = Raise (ParameterError n ["more"; "other"]) /\
       outcome (call_with_args py_func) [("other", PyStr "foo"); ("more", PyInt 1)]
       = Raise (ParameterError n ["other"; "more"]) /\
       outcome (call_with_args py_func) [("more", PyInt 1); ("other", PyStr "foo")]
       = Raise (ParameterError n ["more"; "other"]).
Proof.
  apply (entry_order_only_reaches_the_key_list py_func
           [("other", PyStr "foo"); ("more", PyInt 1)]
           [("more", PyInt 1); ("other", PyStr "foo")]).
  - apply perm_swap.
  - distinct_names.
Defined.
